(** * Graph search algorithms: BFS, DFS, path finding, components

    A shallow embedding of [graph_search_algorithms.py] (class [Graph]) and
    the verification of its traversal contracts.

    Modelling decisions.
    - A vertex is a Python [str]: [string].
    - [adjacency_list] is a [defaultdict(list)].  Key order matters
      ([get_vertices], the component scan, the first vertex of
      [is_connected]), so it is an association list in insertion order.
      Reading [adjacency_list[k]] for a missing [k] inserts [k] with an empty
      list; [getitem] returns the new mapping together with the value.
    - [visited] sets are [gset string].
    - The [while] loops take a fuel argument and return [None] when it runs
      out.  The public operations supply a fuel computed from the graph and
      are proved never to run out.
    - [dfs_recursive] nests one interpreter frame per vertex of a search
      path, so it takes the number of frames the recursion limit allows and
      raises [RecursionError] beyond it.
    - Every operation returns the graph state after the call next to its
      result, so that the absence of mutation is a theorem and not a
      convention.
    - A graph is a [Graph] object in a state that [add_vertex] and
      [add_edge] can produce.  Such a state satisfies [graph_inv] (lemma
      [built_inv]), and the contracts are proved for every state that
      satisfies [graph_inv]. *)

From stdpp Require Import gmap strings pretty list relations sorting.

Local Open Scope string_scope.
Local Open Scope nat_scope.
Local Open Scope list_scope.

(** ** Data model *)

Definition vertex := string.

Definition adjacency := list (vertex * list vertex).

Record Graph := mkGraph {
  adjacency_list : adjacency;
  directed : bool
}.

(** Outcome of a call that may raise.  Two exceptions are in reach: the
    [RuntimeError] of a dictionary iterator whose dictionary changed size,
    and the [RecursionError] of a call nested deeper than the interpreter
    allows. *)
Inductive outcome (A : Type) : Type :=
  | Returned (a : A)
  | RuntimeError
  | RecursionError.
Arguments Returned {A} a.
Arguments RuntimeError {A}.
Arguments RecursionError {A}.

(** [Graph(directed)]: the constructor, with an empty mapping. *)
Definition new_graph (d : bool) : Graph := mkGraph [] d.

(** [list(d.keys())] *)
Definition keys (adj : adjacency) : list vertex := adj.*1.

(** [k in d] *)
Definition contains (adj : adjacency) (k : vertex) : bool :=
  bool_decide (k ∈ keys adj).

(** [d.get(k)], [None] when the key is absent. *)
Fixpoint get (adj : adjacency) (k : vertex) : option (list vertex) :=
  match adj with
  | [] => None
  | (k', ns) :: adj' => if decide (k' = k) then Some ns else get adj' k
  end.

(** [d.get(k, [])] *)
Definition nbrs (adj : adjacency) (k : vertex) : list vertex :=
  default [] (get adj k).

(** [d[k]] on a [defaultdict(list)]: a missing key is created with [[]]. *)
Definition getitem (adj : adjacency) (k : vertex) : list vertex * adjacency :=
  match get adj k with
  | Some ns => (ns, adj)
  | None => ([], adj ++ [(k, [])])
  end.

(** [if k not in d: d[k] = []] *)
Definition ensure_key (adj : adjacency) (k : vertex) : adjacency :=
  if contains adj k then adj else adj ++ [(k, [])].

(** [d[k].append(x)] on a [defaultdict(list)]. *)
Fixpoint append_item (adj : adjacency) (k x : vertex) : adjacency :=
  match adj with
  | [] => [(k, [x])]
  | (k', ns) :: adj' =>
      if decide (k' = k) then (k', ns ++ [x]) :: adj'
      else (k', ns) :: append_item adj' k x
  end.

(** ** Mutation *)

Definition add_edge (g : Graph) (start end_ : vertex) : Graph :=
  let adj := ensure_key (adjacency_list g) start in
  let adj := ensure_key adj end_ in
  let adj := append_item adj start end_ in
  let adj := if negb (directed g) then append_item adj end_ start else adj in
  mkGraph adj (directed g).

Definition add_vertex (g : Graph) (v : vertex) : Graph :=
  mkGraph (ensure_key (adjacency_list g) v) (directed g).

(** ** Queries *)

Definition get_vertices (g : Graph) : list vertex * Graph :=
  (keys (adjacency_list g), g).

Definition get_neighbors (g : Graph) (v : vertex) : list vertex * Graph :=
  (nbrs (adjacency_list g) v, g).

(** ** Breadth-first search *)

(** [for neighbor in ns: if neighbor not in visited: queue.append(neighbor)] *)
Fixpoint enqueue_unvisited (visited : gset vertex) (queue ns : list vertex)
  : list vertex :=
  match ns with
  | [] => queue
  | neighbor :: ns' =>
      enqueue_unvisited visited
        (if bool_decide (neighbor ∈ visited) then queue else queue ++ [neighbor])
        ns'
  end.

(** The [while queue:] loop of [breadth_first_search]; the inner loop of
    [connected_components_bfs] is the same text, run on the shared
    [visited] set. *)
Fixpoint bfs_loop (fuel : nat) (adj : adjacency) (visited : gset vertex)
    (queue result : list vertex)
  : option (list vertex * gset vertex * adjacency) :=
  match fuel with
  | 0 => None
  | S fuel' =>
      match queue with
      | [] => Some (result, visited, adj)
      | current :: queue' =>
          if bool_decide (current ∈ visited)
          then bfs_loop fuel' adj visited queue' result
          else
            let visited' := {[current]} ∪ visited in
            let result' := result ++ [current] in
            let '(ns, adj') := getitem adj current in
            bfs_loop fuel' adj' visited' (enqueue_unvisited visited' queue' ns) result'
      end
  end.

(** Number of adjacency entries, the bound on the work of one traversal. *)
Definition edge_count (adj : adjacency) : nat :=
  sum_list_with (λ e, length e.2) adj.

Definition loop_fuel (adj : adjacency) : nat := S (S (edge_count adj)).

Definition breadth_first_search (g : Graph) (start : vertex)
  : option (list vertex * Graph) :=
  if negb (contains (adjacency_list g) start) then Some ([], g)
  else
    '(result, _, adj) ← bfs_loop (loop_fuel (adjacency_list g))
                          (adjacency_list g) ∅ [start] [];
    Some (result, mkGraph adj (directed g)).

(** ** Depth-first search, iterative *)

(** The stack is a Python list used from its end; here the top of the stack
    is the head of the list, so [stack.append(x)] is [x :: stack] and
    [stack.pop()] takes the head.

    [for neighbor in ns: if neighbor not in visited: stack.append(neighbor)] *)
Fixpoint push_unvisited (visited : gset vertex) (stack ns : list vertex)
  : list vertex :=
  match ns with
  | [] => stack
  | neighbor :: ns' =>
      push_unvisited visited
        (if bool_decide (neighbor ∈ visited) then stack else neighbor :: stack)
        ns'
  end.

Fixpoint dfs_loop (fuel : nat) (adj : adjacency) (visited : gset vertex)
    (stack result : list vertex)
  : option (list vertex * gset vertex * adjacency) :=
  match fuel with
  | 0 => None
  | S fuel' =>
      match stack with
      | [] => Some (result, visited, adj)
      | current :: stack' =>
          if bool_decide (current ∈ visited)
          then dfs_loop fuel' adj visited stack' result
          else
            let visited' := {[current]} ∪ visited in
            let result' := result ++ [current] in
            let '(ns, adj') := getitem adj current in
            dfs_loop fuel' adj' visited'
              (push_unvisited visited' stack' (reverse ns)) result'
      end
  end.

Definition depth_first_search (g : Graph) (start : vertex)
  : option (list vertex * Graph) :=
  if negb (contains (adjacency_list g) start) then Some ([], g)
  else
    '(result, _, adj) ← dfs_loop (loop_fuel (adjacency_list g))
                          (adjacency_list g) ∅ [start] [];
    Some (result, mkGraph adj (directed g)).

(** ** Depth-first search, recursive *)

(** What one activation of [dfs_recursive] leaves behind: its outcome, the
    shared visited set and the mapping. *)
Definition traversal := (outcome (list vertex) * gset vertex * adjacency)%type.

(** The body of [for neighbor in self.adjacency_list[start]] in
    [dfs_recursive]; [call] is the recursive call [self.dfs_recursive].  An
    exception raised by the call ends the loop and is passed on. *)
Fixpoint for_neighbors (call : adjacency → vertex → gset vertex → traversal)
    (ns : list vertex) (adj : adjacency) (visited : gset vertex)
    (result : list vertex) : traversal :=
  match ns with
  | [] => (Returned result, visited, adj)
  | neighbor :: ns' =>
      if bool_decide (neighbor ∈ visited)
      then for_neighbors call ns' adj visited result
      else
        match call adj neighbor visited with
        | (Returned sub, visited', adj') =>
            for_neighbors call ns' adj' visited' (result ++ sub)
        | (RuntimeError, visited', adj') => (RuntimeError, visited', adj')
        | (RecursionError, visited', adj') => (RecursionError, visited', adj')
        end
  end.

(** [dfs_recursive] once [visited] is a set.  Every activation takes one
    frame of the interpreter; [frames] is the number of frames the recursion
    limit still allows, and a call made when none is left raises
    [RecursionError] before its body runs.  The visited set is one object
    shared by the whole call tree, so every call returns it. *)
Fixpoint dfs_recursive_call (frames : nat) (adj : adjacency) (start : vertex)
    (visited : gset vertex) : traversal :=
  match frames with
  | 0 => (RecursionError, visited, adj)
  | S frames' =>
      if negb (contains adj start) || bool_decide (start ∈ visited)
      then (Returned [], visited, adj)
      else
        let visited' := {[start]} ∪ visited in
        let '(ns, adj') := getitem adj start in
        for_neighbors (dfs_recursive_call frames') ns adj' visited' [start]
  end.

(** [dfs_recursive(start, visited)]; [visited = None] is the default.
    Like every operation here the call itself is taken to be possible;
    [limit] is the number of activations of [dfs_recursive] that the
    recursion limit of the interpreter allows inside it, that is, the limit
    set with [sys.setrecursionlimit] (1000 unless changed) less the frames
    in use once the call is entered. *)
Definition dfs_recursive (limit : nat) (g : Graph) (start : vertex)
    (visited : option (gset vertex))
  : outcome (list vertex) * Graph :=
  let '(result, _, adj) :=
    dfs_recursive_call (S limit) (adjacency_list g) start (default ∅ visited) in
  (result, mkGraph adj (directed g)).

(** ** Path finding *)

Abbreviation path := (list vertex).

(** The [for] loop of [find_path_bfs]: it either returns the path to the
    target ([inl]) or finishes with the extended queue ([inr]). *)
Fixpoint scan_bfs (visited : gset vertex) (target : vertex) (p : path)
    (queue : list (vertex * path)) (ns : list vertex)
  : path + list (vertex * path) :=
  match ns with
  | [] => inr queue
  | neighbor :: ns' =>
      if decide (neighbor = target) then inl (p ++ [neighbor])
      else
        scan_bfs visited target p
          (if bool_decide (neighbor ∈ visited) then queue
           else queue ++ [(neighbor, p ++ [neighbor])])
          ns'
  end.

Fixpoint find_path_bfs_loop (fuel : nat) (adj : adjacency) (target : vertex)
    (visited : gset vertex) (queue : list (vertex * path))
  : option (option path * adjacency) :=
  match fuel with
  | 0 => None
  | S fuel' =>
      match queue with
      | [] => Some (None, adj)
      | (current, p) :: queue' =>
          if bool_decide (current ∈ visited)
          then find_path_bfs_loop fuel' adj target visited queue'
          else
            let visited' := {[current]} ∪ visited in
            let '(ns, adj') := getitem adj current in
            match scan_bfs visited' target p queue' ns with
            | inl found => Some (Some found, adj')
            | inr queue'' => find_path_bfs_loop fuel' adj' target visited' queue''
            end
      end
  end.

Definition find_path_bfs (g : Graph) (start target : vertex)
  : option (option path * Graph) :=
  if negb (contains (adjacency_list g) start)
     || negb (contains (adjacency_list g) target)
  then Some (None, g)
  else if decide (start = target) then Some (Some [start], g)
  else
    '(r, adj) ← find_path_bfs_loop (loop_fuel (adjacency_list g))
                  (adjacency_list g) target ∅ [(start, [start])];
    Some (r, mkGraph adj (directed g)).

(** The [for] loop of [find_path_dfs]; the stack has its top at the head. *)
Fixpoint scan_dfs (visited : gset vertex) (target : vertex) (p : path)
    (stack : list (vertex * path)) (ns : list vertex)
  : path + list (vertex * path) :=
  match ns with
  | [] => inr stack
  | neighbor :: ns' =>
      if decide (neighbor = target) then inl (p ++ [neighbor])
      else
        scan_dfs visited target p
          (if bool_decide (neighbor ∈ visited) then stack
           else (neighbor, p ++ [neighbor]) :: stack)
          ns'
  end.

Fixpoint find_path_dfs_loop (fuel : nat) (adj : adjacency) (target : vertex)
    (visited : gset vertex) (stack : list (vertex * path))
  : option (option path * adjacency) :=
  match fuel with
  | 0 => None
  | S fuel' =>
      match stack with
      | [] => Some (None, adj)
      | (current, p) :: stack' =>
          if bool_decide (current ∈ visited)
          then find_path_dfs_loop fuel' adj target visited stack'
          else
            let visited' := {[current]} ∪ visited in
            let '(ns, adj') := getitem adj current in
            match scan_dfs visited' target p stack' ns with
            | inl found => Some (Some found, adj')
            | inr stack'' => find_path_dfs_loop fuel' adj' target visited' stack''
            end
      end
  end.

Definition find_path_dfs (g : Graph) (start target : vertex)
  : option (option path * Graph) :=
  if negb (contains (adjacency_list g) start)
     || negb (contains (adjacency_list g) target)
  then Some (None, g)
  else if decide (start = target) then Some (Some [start], g)
  else
    '(r, adj) ← find_path_dfs_loop (loop_fuel (adjacency_list g))
                  (adjacency_list g) target ∅ [(start, [start])];
    Some (r, mkGraph adj (directed g)).

(** ** Connected components *)

(** [for vertex in self.adjacency_list: ...].  [vs] are the keys still to
    come and [size0] the size of the dictionary when the iterator was made;
    every [next] compares the current size with it. *)
Fixpoint components_loop (size0 : nat) (vs : list vertex) (adj : adjacency)
    (visited : gset vertex) (components : list (list vertex))
  : option (outcome (list (list vertex)) * adjacency) :=
  if bool_decide (length adj ≠ size0) then Some (RuntimeError, adj)
  else
    match vs with
    | [] => Some (Returned components, adj)
    | v :: vs' =>
        if bool_decide (v ∈ visited)
        then components_loop size0 vs' adj visited components
        else
          match bfs_loop (loop_fuel adj) adj visited [v] [] with
          | None => None
          | Some (component, visited', adj') =>
              components_loop size0 vs' adj' visited'
                (match component with
                 | [] => components
                 | _ :: _ => components ++ [component]
                 end)
          end
    end.

Definition connected_components_bfs (g : Graph)
  : option (outcome (list (list vertex)) * Graph) :=
  '(r, adj) ← components_loop (length (adjacency_list g))
                (keys (adjacency_list g)) (adjacency_list g) ∅ [];
  Some (r, mkGraph adj (directed g)).

(** ** Connectivity *)

Definition is_connected (g : Graph) : option (bool * Graph) :=
  match keys (adjacency_list g) with
  | [] => Some (true, g)
  | start :: _ =>
      '(result, g') ← breadth_first_search g start;
      let visited : gset vertex := list_to_set result in
      Some (bool_decide (size visited = length (adjacency_list g')), g')
  end.

(** ** Sample graphs *)

Fixpoint add_edges (g : Graph) (es : list (vertex * vertex)) : Graph :=
  match es with
  | [] => g
  | (u, v) :: es' => add_edges (add_edge g u v) es'
  end.

(** Undirected A-B, A-C, B-D, C-E, D-E. *)
Definition sample_graph : Graph :=
  add_edges (new_graph false)
    [("A","B"); ("A","C"); ("B","D"); ("C","E"); ("D","E")].

(** Directed chain A->B->C. *)
Definition chain_graph : Graph :=
  add_edges (new_graph true) [("A","B"); ("B","C")].

(** Undirected A-B, C-D, D-E and the isolated vertex F. *)
Definition islands_graph : Graph :=
  add_vertex (add_edges (new_graph false) [("A","B"); ("C","D"); ("D","E")]) "F".

(** Undirected path A-B-C-D. *)
Definition path_graph : Graph :=
  add_edges (new_graph false) [("A","B"); ("B","C"); ("C","D")].

(** Undirected triangle A-B-C. *)
Definition triangle : Graph :=
  add_edges (new_graph false) [("A","B"); ("B","C"); ("C","A")].

(** Two isolated vertices. *)
Definition two_vertices : Graph :=
  add_vertex (add_vertex (new_graph false) "A") "B".


(** ** Representation invariant *)

(** Every vertex named in a neighbour list is a key. *)
Definition closed (adj : adjacency) : Prop :=
  Forall (λ e, Forall (λ n, n ∈ keys adj) e.2) adj.

(** The invariant of a [Graph] object: dictionary keys are unique and the
    neighbour lists only name keys. *)
Definition graph_inv (g : Graph) : Prop :=
  NoDup (keys (adjacency_list g)) ∧ closed (adjacency_list g).

Global Instance closed_dec adj : Decision (closed adj).
Proof. unfold closed. apply _. Defined.

Global Instance graph_inv_dec g : Decision (graph_inv g).
Proof. unfold graph_inv. apply _. Defined.

(** The graphs a client can build. *)
Inductive built : Graph → Prop :=
  | built_new d : built (new_graph d)
  | built_add_vertex g v : built g → built (add_vertex g v)
  | built_add_edge g u v : built g → built (add_edge g u v).

(** [v] occurs in the neighbour list of [u]. *)
Definition edge (adj : adjacency) (u v : vertex) : Prop := v ∈ nbrs adj u.

(** ** Specification vocabulary *)

Definition is_key (adj : adjacency) (x : vertex) : Prop := x ∈ keys adj.

(** [x] is forward-reachable from [s] along adjacency edges. *)
Definition reachable (adj : adjacency) (s x : vertex) : Prop :=
  rtc (edge adj) s x.

(** Every consecutive pair of [p] is an edge of the graph. *)
Definition walk (adj : adjacency) (p : path) : Prop :=
  ∀ i u v, p !! i = Some u → p !! S i = Some v → edge adj u v.

(** [p] leads from [s] to [t] along edges. *)
Definition path_from_to (adj : adjacency) (s t : vertex) (p : path) : Prop :=
  head p = Some s ∧ last p = Some t ∧ walk adj p.

(** Number of edges of a path. *)
Definition edges_of (p : path) : nat := pred (length p).

(** The result of a path search is a path from [s] to [target] without a
    repeated vertex. *)
Definition simple_path (adj : adjacency) (s target : vertex)
    (r : option path) : Prop :=
  ∀ p, r = Some p → path_from_to adj s target p ∧ NoDup p.

(** The result is a path with the fewest edges, and there is no result
    only if there is no path. *)
Definition shortest (adj : adjacency) (s target : vertex)
    (r : option path) : Prop :=
  match r with
  | Some p => path_from_to adj s target p ∧
              ∀ w, path_from_to adj s target w → length p ≤ length w
  | None => ∀ w, ¬ path_from_to adj s target w
  end.

(** ** Measures *)

(** Work still to be done by a worklist loop: the neighbour lists of the
    keys that have not been expanded yet. *)
Definition pending (adj : adjacency) (visited : gset vertex) : nat :=
  sum_list_with (λ e, if bool_decide (e.1 ∈ visited) then 0 else length e.2) adj.

(** Keys not yet visited: the bound on the depth of the recursion. *)
Definition unvisited (adj : adjacency) (visited : gset vertex) : nat :=
  length (filter (λ k, k ∉ visited) (keys adj)).

(** With more than [unvisited] frames left the recursive search returns,
    and it returns the mapping it was given. *)
Definition call_total (adj : adjacency) (frames : nat) : Prop :=
  ∀ v vis, unvisited adj vis < frames →
    ∃ sub vis', dfs_recursive_call frames adj v vis = (Returned sub, vis', adj)
                ∧ vis ⊆ vis'.

(** ** Loop invariants *)

(** The worklist entry made for the neighbour [n] of the end of [p]. *)
Definition extend (p : path) (n : vertex) : vertex * path := (n, p ++ [n]).

(** Invariant shared by the queue and the stack traversal from [s]: the
    result lists the visited set without repetition, visited and pending
    vertices are reachable, and every edge out of a visited vertex leads to
    a visited or a pending vertex. *)
Definition search_inv (adj : adjacency) (s : vertex) (vis : gset vertex)
    (work res : list vertex) : Prop :=
  NoDup res ∧
  (∀ x, x ∈ res ↔ x ∈ vis) ∧
  (∀ x, x ∈ vis → reachable adj s x) ∧
  (∀ x, x ∈ work → reachable adj s x) ∧
  (∀ x y, x ∈ vis → edge adj x y → y ∈ vis ∨ y ∈ work) ∧
  (s ∈ vis ∨ s ∈ work).

(** Started with [work] on top of any stack, the stack loop reaches, after
    [k] iterations, the state where [work] is consumed, [sub] has been
    appended to the result and the visited set is [vis']. *)
Definition simulates (adj : adjacency) (vis vis' : gset vertex)
    (work sub : list vertex) : Prop :=
  ∃ k, ∀ fuel st res,
    dfs_loop (k + fuel) adj vis (work ++ st) res
    = dfs_loop fuel adj vis' st (res ++ sub).

Definition call_simulated (adj : adjacency) (frames : nat) : Prop :=
  ∀ v vis sub vis' adj',
    v ∈ keys adj →
    dfs_recursive_call frames adj v vis = (Returned sub, vis', adj') →
    adj' = adj ∧ vis ⊆ vis' ∧ simulates adj vis vis' [v] sub.

(** An activation of the recursive search returns or raises
    [RecursionError], and either way leaves the mapping as it was. *)
Definition call_framed (adj : adjacency) (frames : nat) : Prop :=
  ∀ v vis r vis' adj',
    dfs_recursive_call frames adj v vis = (r, vis', adj') →
    adj' = adj ∧ (r = RecursionError ∨ ∃ sub, r = Returned sub).

(** Every worklist entry [(c, p)] of a path search holds a simple path [p]
    from [s] to [c] whose vertices before [c] have all been visited; the
    target is never visited and never enters the worklist. *)
Definition entry_ok (adj : adjacency) (s target : vertex) (vis : gset vertex)
    (e : vertex * path) : Prop :=
  ∃ q, e.2 = q ++ [e.1] ∧ head e.2 = Some s ∧ walk adj e.2 ∧ NoDup e.2 ∧
       (∀ x, x ∈ q → x ∈ vis) ∧ e.1 ≠ target.

Definition path_inv (adj : adjacency) (s target : vertex) (vis : gset vertex)
    (work : list (vertex * path)) : Prop :=
  (target ∉ vis) ∧ Forall (entry_ok adj s target vis) work.

(** A walk from [s] to [x] that does not pass through the target. *)
Definition tfree_walk (adj : adjacency) (s target : vertex) (w : path)
    (x : vertex) : Prop :=
  head w = Some s ∧ last w = Some x ∧ walk adj w ∧ target ∉ w.

(** Queue order: path lengths never decrease and span at most two
    consecutive levels. *)
Definition level_le (a b : vertex * path) : Prop :=
  length a.2 ≤ length b.2 ∧ length b.2 ≤ S (length a.2).

(** Invariant of the breadth-first path search: queue entries are
    target-free walks in level order, no visited vertex has the target as a
    neighbour, and every neighbour of a visited vertex is visited or queued
    with a path at most one longer than any walk to that vertex. *)
Definition bfs_inv (adj : adjacency) (s target : vertex) (vis : gset vertex)
    (queue : list (vertex * path)) : Prop :=
  Forall (λ e, tfree_walk adj s target e.2 e.1) queue ∧
  StronglySorted level_le queue ∧
  (∀ y, y ∈ vis → target ∉ nbrs adj y) ∧
  (s ∈ vis ∨ (s, [s]) ∈ queue) ∧
  (∀ y n, y ∈ vis → n ∈ nbrs adj y → n ≠ target →
     n ∈ vis ∨ ∃ p, (n, p) ∈ queue ∧
                    ∀ u, tfree_walk adj s target u y → length p ≤ S (length u)).

(** Invariant of one component scan started at [v] with the vertices of
    the earlier components in [vis0]. *)
Definition comp_inv (adj : adjacency) (vis0 : gset vertex) (v : vertex)
    (vis : gset vertex) (work res : list vertex) : Prop :=
  NoDup res ∧
  (∀ x, x ∈ vis ↔ x ∈ vis0 ∨ x ∈ res) ∧
  (∀ x, x ∈ res → (x ∉ vis0) ∧ x ∈ keys adj) ∧
  (v ∈ vis ∨ v ∈ work).

(** Discharges a decidable side condition on a concrete graph. *)
Ltac by_evaluation := apply (bool_decide_unpack _); vm_compute; exact I.

(** ** Vocabulary of the further properties *)

(** The edge relation of an undirected graph: every edge has its reverse. *)
Definition symmetric (adj : adjacency) : Prop :=
  ∀ u v, edge adj u v → edge adj v u.

(** Invariant of the depth-first path search used for its completeness:
    no visited vertex has the target as a neighbour, and the start and every
    other neighbour of a visited vertex is visited or on the stack. *)
Definition dfs_complete_inv (adj : adjacency) (s target : vertex)
    (vis : gset vertex) (stack : list (vertex * path)) : Prop :=
  (∀ y, y ∈ vis → target ∉ nbrs adj y) ∧
  (s ∈ vis ∨ s ∈ stack.*1) ∧
  (∀ y n, y ∈ vis → n ∈ nbrs adj y → n ≠ target → n ∈ vis ∨ n ∈ stack.*1).

(** A search that finds nothing had nothing to find. *)
Definition complete (adj : adjacency) (s target : vertex)
    (r : option path) : Prop :=
  r = None → ∀ w, ¬ path_from_to adj s target w.

(** [x] is reachable from [s] along edges without entering [blocked]
    after the start. *)
Definition reachable_avoiding (adj : adjacency) (blocked : gset vertex)
    (s x : vertex) : Prop :=
  rtc (λ u v, edge adj u v ∧ v ∉ blocked) s x.

(** Invariant of a traversal from [s] that starts with a non-empty visited
    set [blocked]: the result lists, without repetition and beginning with
    [s], the vertices visited on top of [blocked]; results and worklist are
    reachable without entering [blocked]; every neighbour of a result is
    visited or in the worklist. *)
Definition scan_inv (adj : adjacency) (blocked : gset vertex) (s : vertex)
    (vis : gset vertex) (work res : list vertex) : Prop :=
  NoDup res ∧
  (∀ x, x ∈ vis ↔ x ∈ blocked ∨ x ∈ res) ∧
  (∀ x, x ∈ res → x ∉ blocked) ∧
  (∀ x, x ∈ res ∨ x ∈ work → reachable_avoiding adj blocked s x) ∧
  (∀ x y, x ∈ res → edge adj x y → y ∈ vis ∨ y ∈ work) ∧
  ((res = [] ∧ work = [s]) ∨ head res = Some s).

(** Shape of a component list: each component begins with its seed, the
    first key that no earlier component holds, and consists of exactly the
    vertices reachable from the seed without entering an earlier
    component. *)
Definition components_shape (adj : adjacency) (comps : list (list vertex)) : Prop :=
  ∀ i c, comps !! i = Some c →
    ∃ v before after,
      head c = Some v ∧
      keys adj = before ++ v :: after ∧
      (∀ k, k ∈ before → k ∈ concat (take i comps)) ∧
      (v ∉ concat (take i comps)) ∧
      ∀ x, x ∈ c ↔
           reachable_avoiding adj (list_to_set (concat (take i comps))) v x.

(** [n] is the least number of edges of a path from [s] to [x]. *)
Definition distance (adj : adjacency) (s x : vertex) (n : nat) : Prop :=
  (∃ p, path_from_to adj s x p ∧ edges_of p = n) ∧
  ∀ w, path_from_to adj s x w → n ≤ edges_of w.

(** Invariant of [breadth_first_search] for its visiting order.  The queue
    is the queue of the path search for a [target] that occurs nowhere in
    the graph, with the paths forgotten: [annotated] puts them back.  The
    results carry the lengths [levels] of shortest paths, in non-decreasing
    order and bounded by every path still queued. *)
Definition level_inv (adj : adjacency) (s target : vertex) (vis : gset vertex)
    (queue res : list vertex) : Prop :=
  ∃ (annotated : list (vertex * path)) (levels : list nat),
    queue = annotated.*1 ∧
    bfs_inv adj s target vis annotated ∧
    Forall2 (λ x n, distance adj s x (pred n)) res levels ∧
    StronglySorted le levels ∧
    ∀ n e, n ∈ levels → e ∈ annotated → n ≤ length e.2.

(** * Proofs *)

(** ** The test suite, replayed on the model

    The fixtures and expected values of [test_graph_algorithms.py]. *)

Example test_add_edge_undirected :
  adjacency_list (add_edge (new_graph false) "A" "B") = [("A", ["B"]); ("B", ["A"])].
Proof. reflexivity. Qed.

Example test_add_edge_directed :
  adjacency_list (add_edge (new_graph true) "A" "B") = [("A", ["B"]); ("B", [])].
Proof. reflexivity. Qed.

Example test_bfs_traversal :
  breadth_first_search sample_graph "A"
  = Some (["A"; "B"; "C"; "D"; "E"], sample_graph).
Proof. vm_compute. reflexivity. Qed.

Example test_dfs_traversal :
  depth_first_search sample_graph "A"
  = Some (["A"; "B"; "D"; "E"; "C"], sample_graph).
Proof. vm_compute. reflexivity. Qed.

Example test_dfs_recursive :
  dfs_recursive 998 sample_graph "A" None
  = (Returned ["A"; "B"; "D"; "E"; "C"], sample_graph).
Proof. vm_compute. reflexivity. Qed.

Example test_bfs_pathfinding :
  find_path_bfs path_graph "A" "D" = Some (Some ["A"; "B"; "C"; "D"], path_graph).
Proof. vm_compute. reflexivity. Qed.

Example test_dfs_pathfinding :
  find_path_dfs path_graph "A" "D" = Some (Some ["A"; "B"; "C"; "D"], path_graph).
Proof. vm_compute. reflexivity. Qed.

Example test_pathfinding_no_path :
  find_path_bfs two_vertices "A" "B" = Some (None, two_vertices) ∧
  find_path_dfs two_vertices "A" "B" = Some (None, two_vertices).
Proof. split; vm_compute; reflexivity. Qed.

Example test_single_component :
  connected_components_bfs triangle = Some (Returned [["A"; "B"; "C"]], triangle) ∧
  is_connected triangle = Some (true, triangle).
Proof. split; vm_compute; reflexivity. Qed.

Example test_multiple_components :
  connected_components_bfs islands_graph
  = Some (Returned [["A"; "B"]; ["C"; "D"; "E"]; ["F"]], islands_graph) ∧
  is_connected islands_graph = Some (false, islands_graph).
Proof. split; vm_compute; reflexivity. Qed.

Example test_empty_graph :
  connected_components_bfs (new_graph false) = Some (Returned [], new_graph false) ∧
  is_connected (new_graph false) = Some (true, new_graph false).
Proof. split; reflexivity. Qed.

Example test_directed_bfs :
  breadth_first_search chain_graph "A" = Some (["A"; "B"; "C"], chain_graph) ∧
  breadth_first_search chain_graph "C" = Some (["C"], chain_graph).
Proof. split; vm_compute; reflexivity. Qed.

Example test_directed_pathfinding :
  find_path_bfs chain_graph "A" "C" = Some (Some ["A"; "B"; "C"], chain_graph) ∧
  find_path_bfs chain_graph "C" "A" = Some (None, chain_graph).
Proof. split; vm_compute; reflexivity. Qed.

(** ** Outside the invariant

    A mapping whose neighbour lists name a vertex that is not a key cannot
    be produced by [add_vertex] and [add_edge] (lemma [built_inv] below); it
    takes a direct write to the [adjacency_list] attribute.  On such a
    mapping the [defaultdict] read inserts the missing key, which the
    dictionary iterator of [connected_components_bfs] then reports. *)

Example read_inserts_missing_key :
  breadth_first_search (mkGraph [("A", ["Z"])] false) "A"
  = Some (["A"; "Z"], mkGraph [("A", ["Z"]); ("Z", [])] false).
Proof. vm_compute. reflexivity. Qed.

Example iterator_reports_insertion :
  connected_components_bfs (mkGraph [("A", ["Z"])] false)
  = Some (RuntimeError, mkGraph [("A", ["Z"]); ("Z", [])] false).
Proof. vm_compute. reflexivity. Qed.

(** ** The dictionary *)

Section dictionary.
Implicit Types (adj : adjacency) (k x : vertex) (ns : list vertex).

Lemma get_Some_elem adj k ns : get adj k = Some ns → (k, ns) ∈ adj.
Proof.
  induction adj as [|[k' ns'] adj IH]; simpl; [done|].
  case_decide; intros ?; simplify_eq; [left | right; auto].
Qed.

Lemma get_is_Some adj k : k ∈ keys adj ↔ is_Some (get adj k).
Proof.
  unfold keys. induction adj as [|[k' ns'] adj IH]; simpl.
  - split; [by intros ?%elem_of_nil | by intros [? ?]].
  - rewrite elem_of_cons, IH. case_decide; subst.
    + split; eauto.
    + split; [intros [?|?]; [congruence|done] | by right].
Qed.

Lemma get_None adj k : k ∉ keys adj ↔ get adj k = None.
Proof. rewrite get_is_Some, eq_None_not_Some. done. Qed.

Lemma contains_true adj k : contains adj k = true ↔ k ∈ keys adj.
Proof. unfold contains. by rewrite bool_decide_eq_true. Qed.

Lemma contains_false adj k : contains adj k = false ↔ k ∉ keys adj.
Proof. unfold contains. by rewrite bool_decide_eq_false. Qed.

Lemma getitem_key adj k : k ∈ keys adj → getitem adj k = (nbrs adj k, adj).
Proof.
  intros [ns Hns]%get_is_Some. unfold getitem, nbrs. by rewrite Hns.
Qed.

Lemma getitem_fst adj k : (getitem adj k).1 = nbrs adj k.
Proof. unfold getitem, nbrs. by destruct (get adj k). Qed.

Lemma get_app adj adj' k :
  get (adj ++ adj') k = match get adj k with Some ns => Some ns | None => get adj' k end.
Proof.
  induction adj as [|[k' ns'] adj IH]; simpl; [done|]. by case_decide.
Qed.

Lemma nbrs_snoc_empty adj k k' : nbrs (adj ++ [(k, [])]) k' = nbrs adj k'.
Proof.
  unfold nbrs. rewrite get_app. destruct (get adj k'); simpl; [done|].
  by case_decide.
Qed.

Lemma getitem_nbrs adj k k' : nbrs (getitem adj k).2 k' = nbrs adj k'.
Proof.
  unfold getitem. destruct (get adj k); simpl; [done|].
  apply nbrs_snoc_empty.
Qed.

Lemma closed_spec adj :
  closed adj ↔ ∀ k ns n, (k, ns) ∈ adj → n ∈ ns → n ∈ keys adj.
Proof.
  unfold closed. rewrite Forall_forall. split.
  - intros Hc k ns n Hin Hn. specialize (Hc _ Hin). simpl in Hc.
    rewrite Forall_forall in Hc. auto.
  - intros Hc [k ns] Hin. apply Forall_forall. intros n Hn. eauto.
Qed.

Lemma closed_nbrs adj k n : closed adj → n ∈ nbrs adj k → n ∈ keys adj.
Proof.
  unfold closed, nbrs. intros Hc Hn.
  destruct (get adj k) as [ns|] eqn:Hg; simpl in Hn; [|by apply elem_of_nil in Hn].
  apply get_Some_elem in Hg.
  rewrite Forall_forall in Hc. specialize (Hc _ Hg). simpl in Hc.
  rewrite Forall_forall in Hc. auto.
Qed.

Lemma nbrs_elem adj k ns : (k, ns) ∈ adj → NoDup (keys adj) → nbrs adj k = ns.
Proof.
  unfold nbrs, keys. induction adj as [|[k' ns'] adj IH]; simpl.
  - by intros ?%elem_of_nil.
  - intros [?|Hin]%elem_of_cons [Hk Hnd]%NoDup_cons; simplify_eq.
    + by rewrite decide_True.
    + rewrite decide_False; [auto|]. intros ->. apply Hk.
      apply list_elem_of_fmap. eexists; split; [|exact Hin]; done.
Qed.

Lemma keys_ensure_key adj k :
  keys (ensure_key adj k) = if contains adj k then keys adj else keys adj ++ [k].
Proof.
  unfold ensure_key. destruct (contains adj k); [done|].
  unfold keys. by rewrite fmap_app.
Qed.

Lemma elem_of_keys_ensure_key adj k k' :
  k' ∈ keys (ensure_key adj k) ↔ k' = k ∨ k' ∈ keys adj.
Proof.
  rewrite keys_ensure_key. destruct (contains adj k) eqn:Hc.
  - apply contains_true in Hc. split; [by right|]. by intros [->|?].
  - rewrite elem_of_app, list_elem_of_singleton. tauto.
Qed.

Lemma nbrs_ensure_key adj k k' : nbrs (ensure_key adj k) k' = nbrs adj k'.
Proof.
  unfold ensure_key. destruct (contains adj k); [done|].
  apply nbrs_snoc_empty.
Qed.

Lemma keys_append_item adj k x :
  k ∈ keys adj → keys (append_item adj k x) = keys adj.
Proof.
  unfold keys. induction adj as [|[k' ns'] adj IH]; simpl.
  - by intros ?%elem_of_nil.
  - intros Hk. case_decide; simpl; [done|].
    f_equal. apply IH. apply elem_of_cons in Hk as [?|?]; [congruence|done].
Qed.

Lemma nbrs_append_item adj k x k' :
  nbrs (append_item adj k x) k' =
  if decide (k = k') then nbrs adj k ++ [x] else nbrs adj k'.
Proof.
  unfold nbrs. induction adj as [|[k0 ns0] adj IH]; cbn [append_item get].
  - destruct (decide (k = k')); done.
  - destruct (decide (k0 = k)) as [->|Hne]; cbn [get].
    + destruct (decide (k = k')) as [->|?]; done.
    + destruct (decide (k0 = k')) as [->|?]; [|apply IH].
      by rewrite decide_False.
Qed.

Lemma closed_ensure_key adj k : closed adj → closed (ensure_key adj k).
Proof.
  unfold closed. rewrite !Forall_forall. intros Hc [k' ns] Hin. simpl.
  rewrite Forall_forall. intros n Hn.
  apply elem_of_keys_ensure_key.
  unfold ensure_key in Hin. destruct (contains adj k).
  - right. specialize (Hc _ Hin). simpl in Hc. rewrite Forall_forall in Hc. auto.
  - apply elem_of_app in Hin as [Hin|Hin].
    + right. specialize (Hc _ Hin). simpl in Hc. rewrite Forall_forall in Hc. auto.
    + apply list_elem_of_singleton in Hin. simplify_eq. by apply elem_of_nil in Hn.
Qed.

Lemma NoDup_ensure_key adj k : NoDup (keys adj) → NoDup (keys (ensure_key adj k)).
Proof.
  rewrite keys_ensure_key. destruct (contains adj k) eqn:Hc; [done|].
  apply contains_false in Hc. intros Hnd.
  apply NoDup_app. split_and!; [done| |apply NoDup_singleton].
  intros x Hx ->%list_elem_of_singleton. done.
Qed.

Lemma elem_of_append_item adj k x k' ns :
  (k', ns) ∈ append_item adj k x →
  (k', ns) ∈ adj ∨ k' = k ∧ ∃ ns0, ns = ns0 ++ [x] ∧ (ns0 = [] ∨ (k, ns0) ∈ adj).
Proof.
  induction adj as [|[k0 ns0] adj IH]; simpl.
  - intros ?%list_elem_of_singleton. simplify_eq. right. split; [done|].
    exists []. auto.
  - case_decide; subst.
    + intros [?|?]%elem_of_cons; simplify_eq.
      * right. split; [done|]. exists ns0. split; [done|]. right. left.
      * left. by right.
    + intros [?|Hin]%elem_of_cons; simplify_eq.
      * left. left.
      * destruct (IH Hin) as [?|(-> & ns1 & -> & Hor)].
        -- left. by right.
        -- right. split; [done|]. exists ns1. split; [done|].
           destruct Hor; [by left|right; by right].
Qed.

Lemma closed_append_item adj k x :
  closed adj → k ∈ keys adj → x ∈ keys adj → closed (append_item adj k x).
Proof.
  unfold closed. rewrite !Forall_forall. intros Hc Hk Hx [k' ns] Hin. simpl.
  rewrite Forall_forall. intros n Hn. rewrite keys_append_item by done.
  apply elem_of_append_item in Hin as [Hin|(-> & ns0 & -> & Hor)].
  - specialize (Hc _ Hin). simpl in Hc. rewrite Forall_forall in Hc. auto.
  - apply elem_of_app in Hn as [Hn|Hn].
    + destruct Hor as [->|Hin]; [by apply elem_of_nil in Hn|].
      specialize (Hc _ Hin). simpl in Hc. rewrite Forall_forall in Hc. auto.
    + apply list_elem_of_singleton in Hn. by subst.
Qed.
End dictionary.

(** ** The invariant is established and preserved *)

Lemma graph_inv_new d : graph_inv (new_graph d).
Proof. split; [apply NoDup_nil_2 | apply Forall_nil_2]. Qed.

Lemma graph_inv_add_vertex g v : graph_inv g → graph_inv (add_vertex g v).
Proof.
  intros [Hnd Hc]. split; simpl.
  - by apply NoDup_ensure_key.
  - by apply closed_ensure_key.
Qed.

Lemma graph_inv_add_edge g u v : graph_inv g → graph_inv (add_edge g u v).
Proof.
  intros [Hnd Hc]. unfold add_edge.
  set (a1 := ensure_key (ensure_key (adjacency_list g) u) v).
  assert (Hu : u ∈ keys a1).
  { apply elem_of_keys_ensure_key. right. apply elem_of_keys_ensure_key. by left. }
  assert (Hv : v ∈ keys a1) by (apply elem_of_keys_ensure_key; by left).
  assert (Hnd1 : NoDup (keys a1)) by (by do 2 apply NoDup_ensure_key).
  assert (Hc1 : closed a1) by (by do 2 apply closed_ensure_key).
  assert (Hk2 : keys (append_item a1 u v) = keys a1) by (by apply keys_append_item).
  assert (Hc2 : closed (append_item a1 u v)) by (by apply closed_append_item).
  split; simpl; destruct (directed g); simpl.
  - by rewrite Hk2.
  - rewrite keys_append_item; rewrite Hk2; done.
  - done.
  - apply closed_append_item; rewrite ?Hk2; done.
Qed.

Lemma built_inv g : built g → graph_inv g.
Proof.
  induction 1; auto using graph_inv_new, graph_inv_add_vertex, graph_inv_add_edge.
Qed.

(** Neighbour lists after [add_edge]. *)
Lemma nbrs_add_edge g u v w :
  nbrs (adjacency_list (add_edge g u v)) w =
  nbrs (adjacency_list g) w
    ++ (if decide (u = w) then [v] else [])
    ++ (if directed g then [] else if decide (v = w) then [u] else []).
Proof.
  unfold add_edge. destruct (directed g); simpl.
  - rewrite nbrs_append_item, !nbrs_ensure_key.
    case_decide; subst; by rewrite ?app_nil_r.
  - rewrite !nbrs_append_item, !nbrs_ensure_key.
    repeat case_decide; subst; rewrite ?app_nil_r; try done.
    by rewrite <-app_assoc.
Qed.

(** ** The loops terminate *)

Section termination.
Implicit Types (adj : adjacency) (visited : gset vertex).

Lemma getitem_cases adj k :
  getitem adj k = (nbrs adj k, adj) ∨
  getitem adj k = (nbrs adj k, adj ++ [(k, [])]).
Proof. unfold getitem, nbrs. destruct (get adj k); auto. Qed.

Lemma pending_snoc_empty adj k visited :
  pending (adj ++ [(k, [])]) visited = pending adj visited.
Proof.
  unfold pending. rewrite sum_list_with_app. simpl.
  case_bool_decide; lia.
Qed.

Lemma pending_getitem adj k visited :
  pending (getitem adj k).2 visited = pending adj visited.
Proof.
  destruct (getitem_cases adj k) as [->| ->]; simpl; [done|].
  apply pending_snoc_empty.
Qed.

Lemma pending_mono adj visited visited' :
  visited ⊆ visited' → pending adj visited' ≤ pending adj visited.
Proof.
  intros Hsub. unfold pending.
  induction adj as [|[k ns] adj IH]; simpl; [done|].
  repeat case_bool_decide; try lia. set_solver.
Qed.

Lemma pending_visit adj k visited :
  k ∉ visited →
  length (nbrs adj k) + pending adj ({[k]} ∪ visited) ≤ pending adj visited.
Proof.
  intros Hk. unfold nbrs.
  induction adj as [|[k' ns] adj IH]; cbn [get]; [done|].
  change (pending ((k', ns) :: adj) ?v)
    with ((if bool_decide (k' ∈ v) then 0 else length ns) + pending adj v).
  destruct (decide (k' = k)) as [->|Hne]; simpl.
  - rewrite bool_decide_true by set_solver.
    rewrite bool_decide_false by done.
    assert (Hsub : visited ⊆ {[k]} ∪ visited) by apply union_subseteq_r.
    pose proof (pending_mono adj visited ({[k]} ∪ visited) Hsub). lia.
  - assert (k' ∈ {[k]} ∪ visited ↔ k' ∈ visited) as Hiff.
    { rewrite elem_of_union, elem_of_singleton. split; [|by right].
      intros [?|?]; [congruence|done]. }
    rewrite (bool_decide_ext _ _ Hiff). lia.
Qed.

Lemma pending_empty adj : pending adj ∅ = edge_count adj.
Proof.
  unfold pending, edge_count.
  induction adj as [|[k ns] adj IH]; simpl; [done|]. by rewrite IH.
Qed.

Lemma enqueue_unvisited_filter visited queue ns :
  enqueue_unvisited visited queue ns = queue ++ filter (λ n, n ∉ visited) ns.
Proof.
  revert queue. induction ns as [|n ns IH]; intros queue; simpl.
  - by rewrite app_nil_r.
  - rewrite IH. case_bool_decide.
    + by rewrite filter_cons_False by (intros Hn; by apply Hn).
    + rewrite filter_cons_True by done. by rewrite <-app_assoc.
Qed.

Lemma push_unvisited_filter visited stack ns :
  push_unvisited visited stack ns
  = reverse (filter (λ n, n ∉ visited) ns) ++ stack.
Proof.
  revert stack. induction ns as [|n ns IH]; intros stack; simpl; [done|].
  rewrite IH. case_bool_decide.
  - by rewrite filter_cons_False by (intros Hn; by apply Hn).
  - rewrite filter_cons_True by done.
    by rewrite reverse_cons, <-app_assoc.
Qed.

Lemma push_unvisited_reverse visited stack ns :
  push_unvisited visited stack (reverse ns)
  = filter (λ n, n ∉ visited) ns ++ stack.
Proof.
  by rewrite push_unvisited_filter, filter_reverse, reverse_involutive.
Qed.

Lemma scan_bfs_inr visited target p queue ns queue' :
  scan_bfs visited target p queue ns = inr queue' →
  (target ∉ ns) ∧
  queue' = queue ++ (extend p <$> filter (λ n, n ∉ visited) ns).
Proof.
  revert queue. induction ns as [|n ns IH]; intros queue; simpl.
  - intros [= <-]. split; [apply not_elem_of_nil | by rewrite app_nil_r].
  - case_decide; [done|]. intros [Ht ->]%IH.
    split; [rewrite not_elem_of_cons; by split|].
    case_bool_decide.
    + by rewrite filter_cons_False by (intros Hn; by apply Hn).
    + rewrite filter_cons_True by done. by rewrite <-app_assoc.
Qed.

Lemma scan_bfs_inl visited target p queue ns found :
  scan_bfs visited target p queue ns = inl found →
  target ∈ ns ∧ found = p ++ [target].
Proof.
  revert queue. induction ns as [|n ns IH]; intros queue; simpl; [done|].
  case_decide; subst.
  - intros [= <-]. split; [left | done].
  - intros [? ?]%IH. split; [by right | done].
Qed.

Lemma scan_dfs_inr visited target p stack ns stack' :
  scan_dfs visited target p stack ns = inr stack' →
  (target ∉ ns) ∧
  stack' = reverse (extend p <$> filter (λ n, n ∉ visited) ns) ++ stack.
Proof.
  revert stack. induction ns as [|n ns IH]; intros stack; simpl.
  - intros [= <-]. split; [apply not_elem_of_nil | done].
  - case_decide; [done|]. intros [Ht ->]%IH.
    split; [rewrite not_elem_of_cons; by split|].
    case_bool_decide.
    + by rewrite filter_cons_False by (intros Hn; by apply Hn).
    + rewrite filter_cons_True by done.
      by rewrite fmap_cons, reverse_cons, <-app_assoc.
Qed.

Lemma scan_dfs_inl visited target p stack ns found :
  scan_dfs visited target p stack ns = inl found →
  target ∈ ns ∧ found = p ++ [target].
Proof.
  revert stack. induction ns as [|n ns IH]; intros stack; simpl; [done|].
  case_decide; subst.
  - intros [= <-]. split; [left | done].
  - intros [? ?]%IH. split; [by right | done].
Qed.

Lemma length_filter_le {A} (P : A → Prop) `{!∀ x, Decision (P x)} (l : list A) :
  length (filter P l) ≤ length l.
Proof.
  induction l as [|x l IH]; simpl; [done|].
  destruct (decide (P x)).
  - rewrite filter_cons_True by done. simpl. lia.
  - rewrite filter_cons_False by done. lia.
Qed.

Lemma bfs_loop_total fuel adj visited queue result :
  length queue + pending adj visited < fuel →
  is_Some (bfs_loop fuel adj visited queue result).
Proof.
  revert adj visited queue result.
  induction fuel as [|fuel IH]; intros adj visited queue result Hlt; [lia|].
  destruct queue as [|current queue]; simpl; [by eexists|].
  simpl in Hlt. case_bool_decide as Hvis; [apply IH; lia|].
  pose proof (getitem_fst adj current) as Hfst.
  pose proof (pending_getitem adj current ({[current]} ∪ visited)) as Hp.
  destruct (getitem adj current) as [ns adj']; simpl in *; subst ns.
  apply IH. rewrite enqueue_unvisited_filter, length_app, Hp.
  pose proof (length_filter_le (λ n, n ∉ {[current]} ∪ visited) (nbrs adj current)).
  pose proof (pending_visit adj current visited Hvis). lia.
Qed.

Lemma dfs_loop_total fuel adj visited stack result :
  length stack + pending adj visited < fuel →
  is_Some (dfs_loop fuel adj visited stack result).
Proof.
  revert adj visited stack result.
  induction fuel as [|fuel IH]; intros adj visited stack result Hlt; [lia|].
  destruct stack as [|current stack]; simpl; [by eexists|].
  simpl in Hlt. case_bool_decide as Hvis; [apply IH; lia|].
  pose proof (getitem_fst adj current) as Hfst.
  pose proof (pending_getitem adj current ({[current]} ∪ visited)) as Hp.
  destruct (getitem adj current) as [ns adj']; simpl in *; subst ns.
  apply IH. rewrite push_unvisited_reverse, length_app, Hp.
  pose proof (length_filter_le (λ n, n ∉ {[current]} ∪ visited) (nbrs adj current)).
  pose proof (pending_visit adj current visited Hvis). lia.
Qed.

Lemma find_path_bfs_loop_total fuel adj target visited queue :
  length queue + pending adj visited < fuel →
  is_Some (find_path_bfs_loop fuel adj target visited queue).
Proof.
  revert adj visited queue.
  induction fuel as [|fuel IH]; intros adj visited queue Hlt; [lia|].
  destruct queue as [|[current p] queue]; simpl; [by eexists|].
  simpl in Hlt. case_bool_decide as Hvis; [apply IH; lia|].
  pose proof (getitem_fst adj current) as Hfst.
  pose proof (pending_getitem adj current ({[current]} ∪ visited)) as Hp.
  destruct (getitem adj current) as [ns adj']; simpl in *; subst ns.
  destruct (scan_bfs _ _ _ _ _) as [found|queue'] eqn:Hscan; [by eexists|].
  apply scan_bfs_inr in Hscan as [_ ->].
  apply IH. rewrite length_app, length_fmap, Hp.
  pose proof (length_filter_le (λ n, n ∉ {[current]} ∪ visited) (nbrs adj current)).
  pose proof (pending_visit adj current visited Hvis). lia.
Qed.

Lemma find_path_dfs_loop_total fuel adj target visited stack :
  length stack + pending adj visited < fuel →
  is_Some (find_path_dfs_loop fuel adj target visited stack).
Proof.
  revert adj visited stack.
  induction fuel as [|fuel IH]; intros adj visited stack Hlt; [lia|].
  destruct stack as [|[current p] stack]; simpl; [by eexists|].
  simpl in Hlt. case_bool_decide as Hvis; [apply IH; lia|].
  pose proof (getitem_fst adj current) as Hfst.
  pose proof (pending_getitem adj current ({[current]} ∪ visited)) as Hp.
  destruct (getitem adj current) as [ns adj']; simpl in *; subst ns.
  destruct (scan_dfs _ _ _ _ _) as [found|stack'] eqn:Hscan; [by eexists|].
  apply scan_dfs_inr in Hscan as [_ ->].
  apply IH. rewrite length_app, length_reverse, length_fmap, Hp.
  pose proof (length_filter_le (λ n, n ∉ {[current]} ∪ visited) (nbrs adj current)).
  pose proof (pending_visit adj current visited Hvis). lia.
Qed.

Lemma loop_fuel_enough {A} adj visited (x : A) :
  length [x] + pending adj visited < loop_fuel adj.
Proof.
  unfold loop_fuel. rewrite <-pending_empty. simpl.
  assert (Hsub : ∅ ⊆ visited) by apply empty_subseteq.
  pose proof (pending_mono adj ∅ visited Hsub). lia.
Qed.
End termination.

(** ** Invariant rules for the worklist loops

    On a closed graph every vertex that enters a worklist is a key, so
    [getitem] never inserts and the mapping is returned as it was.  Each rule
    reduces a property of a loop to the preservation of an invariant by
    one iteration. *)

Section rules.
Variable adj : adjacency.
Hypothesis Hclosed : closed adj.

Lemma unvisited_nbrs_keys (visited : gset vertex) c :
  Forall (is_key adj) (filter (λ n, n ∉ visited) (nbrs adj c)).
Proof.
  apply Forall_forall. intros n [_ Hn]%list_elem_of_filter.
  by eapply closed_nbrs.
Qed.

Lemma bfs_loop_rule (I : gset vertex → list vertex → list vertex → Prop) :
  (∀ vis c q res, is_key adj c → c ∈ vis → I vis (c :: q) res → I vis q res) →
  (∀ vis c q res, is_key adj c → c ∉ vis → I vis (c :: q) res →
     I ({[c]} ∪ vis) (q ++ filter (λ n, n ∉ {[c]} ∪ vis) (nbrs adj c))
       (res ++ [c])) →
  ∀ fuel vis q res out vis' adj',
    Forall (is_key adj) q → I vis q res →
    bfs_loop fuel adj vis q res = Some (out, vis', adj') →
    adj' = adj ∧ I vis' [] out.
Proof.
  intros Hskip Hexpand fuel.
  induction fuel as [|fuel IH]; intros vis q res out vis' adj' Hq HI; [done|].
  destruct q as [|c q]; simpl.
  { intros [= <- <- <-]. done. }
  apply Forall_cons in Hq as [Hc Hq].
  case_bool_decide as Hvis.
  - apply IH; eauto.
  - rewrite (getitem_key adj c Hc), enqueue_unvisited_filter.
    apply IH; [|by apply Hexpand].
    apply Forall_app. split; [done | apply unvisited_nbrs_keys].
Qed.

Lemma dfs_loop_rule (I : gset vertex → list vertex → list vertex → Prop) :
  (∀ vis c st res, is_key adj c → c ∈ vis → I vis (c :: st) res → I vis st res) →
  (∀ vis c st res, is_key adj c → c ∉ vis → I vis (c :: st) res →
     I ({[c]} ∪ vis) (filter (λ n, n ∉ {[c]} ∪ vis) (nbrs adj c) ++ st)
       (res ++ [c])) →
  ∀ fuel vis st res out vis' adj',
    Forall (is_key adj) st → I vis st res →
    dfs_loop fuel adj vis st res = Some (out, vis', adj') →
    adj' = adj ∧ I vis' [] out.
Proof.
  intros Hskip Hexpand fuel.
  induction fuel as [|fuel IH]; intros vis st res out vis' adj' Hst HI; [done|].
  destruct st as [|c st]; simpl.
  { intros [= <- <- <-]. done. }
  apply Forall_cons in Hst as [Hc Hst].
  case_bool_decide as Hvis.
  - apply IH; eauto.
  - rewrite (getitem_key adj c Hc), push_unvisited_reverse.
    apply IH; [|by apply Hexpand].
    apply Forall_app. split; [apply unvisited_nbrs_keys | done].
Qed.

Lemma extend_keys (visited : gset vertex) p c :
  Forall (λ e, is_key adj e.1) (extend p <$> filter (λ n, n ∉ visited) (nbrs adj c)).
Proof.
  apply Forall_fmap, Forall_forall. intros n [_ Hn]%list_elem_of_filter.
  simpl. by eapply closed_nbrs.
Qed.

Lemma find_path_bfs_loop_rule (target : vertex)
    (I : gset vertex → list (vertex * path) → Prop) (Q : option path → Prop) :
  (∀ vis c p q, is_key adj c → c ∈ vis → I vis ((c, p) :: q) → I vis q) →
  (∀ vis c p q, is_key adj c → c ∉ vis → target ∉ nbrs adj c →
     I vis ((c, p) :: q) →
     I ({[c]} ∪ vis)
       (q ++ (extend p <$> filter (λ n, n ∉ {[c]} ∪ vis) (nbrs adj c)))) →
  (∀ vis c p q, is_key adj c → c ∉ vis → target ∈ nbrs adj c →
     I vis ((c, p) :: q) → Q (Some (p ++ [target]))) →
  (∀ vis, I vis [] → Q None) →
  ∀ fuel vis q r adj',
    Forall (λ e, is_key adj e.1) q → I vis q →
    find_path_bfs_loop fuel adj target vis q = Some (r, adj') →
    adj' = adj ∧ Q r.
Proof.
  intros Hskip Hexpand Hfound Hempty fuel.
  induction fuel as [|fuel IH]; intros vis q r adj' Hq HI; [done|].
  destruct q as [|[c p] q]; simpl.
  { intros [= <- <-]. eauto. }
  apply Forall_cons in Hq as [Hc Hq]. simpl in Hc.
  case_bool_decide as Hvis.
  - apply IH; eauto.
  - rewrite (getitem_key adj c Hc).
    destruct (scan_bfs _ _ _ _ _) as [found|q'] eqn:Hscan.
    + apply scan_bfs_inl in Hscan as [Ht ->]. intros [= <- <-]. eauto.
    + apply scan_bfs_inr in Hscan as [Ht ->].
      apply IH; [|by apply Hexpand].
      apply Forall_app. split; [done | apply extend_keys].
Qed.

Lemma find_path_dfs_loop_rule (target : vertex)
    (I : gset vertex → list (vertex * path) → Prop) (Q : option path → Prop) :
  (∀ vis c p st, is_key adj c → c ∈ vis → I vis ((c, p) :: st) → I vis st) →
  (∀ vis c p st, is_key adj c → c ∉ vis → target ∉ nbrs adj c →
     I vis ((c, p) :: st) →
     I ({[c]} ∪ vis)
       (reverse (extend p <$> filter (λ n, n ∉ {[c]} ∪ vis) (nbrs adj c)) ++ st)) →
  (∀ vis c p st, is_key adj c → c ∉ vis → target ∈ nbrs adj c →
     I vis ((c, p) :: st) → Q (Some (p ++ [target]))) →
  (∀ vis, I vis [] → Q None) →
  ∀ fuel vis st r adj',
    Forall (λ e, is_key adj e.1) st → I vis st →
    find_path_dfs_loop fuel adj target vis st = Some (r, adj') →
    adj' = adj ∧ Q r.
Proof.
  intros Hskip Hexpand Hfound Hempty fuel.
  induction fuel as [|fuel IH]; intros vis st r adj' Hst HI; [done|].
  destruct st as [|[c p] st]; simpl.
  { intros [= <- <-]. eauto. }
  apply Forall_cons in Hst as [Hc Hst]. simpl in Hc.
  case_bool_decide as Hvis.
  - apply IH; eauto.
  - rewrite (getitem_key adj c Hc).
    destruct (scan_dfs _ _ _ _ _) as [found|st'] eqn:Hscan.
    + apply scan_dfs_inl in Hscan as [Ht ->]. intros [= <- <-]. eauto.
    + apply scan_dfs_inr in Hscan as [Ht ->].
      apply IH; [|by apply Hexpand].
      apply Forall_app. split; [|done].
      apply Forall_reverse, extend_keys.
Qed.
End rules.

(** ** Traversals compute the forward-reachable set *)

Section search.
Variable adj : adjacency.
Variable s : vertex.

Lemma search_inv_init : search_inv adj s ∅ [s] [].
Proof.
  split_and!.
  - apply NoDup_nil_2.
  - intros x. split; [by intros ?%elem_of_nil | by intros ?%not_elem_of_empty].
  - by intros x ?%not_elem_of_empty.
  - intros x ->%list_elem_of_singleton. apply rtc_refl.
  - by intros x y ?%not_elem_of_empty.
  - right. left.
Qed.

Lemma search_inv_skip vis c work res :
  c ∈ vis → search_inv adj s vis (c :: work) res → search_inv adj s vis work res.
Proof.
  intros Hc (Hnd & Hres & Hvis & Hwork & Hcl & Hs). split_and!; try done.
  - intros x Hx. apply Hwork. by right.
  - intros x y Hx Hxy.
    destruct (Hcl x y Hx Hxy) as [?|[->|?]%elem_of_cons]; auto.
  - destruct Hs as [?|[->|?]%elem_of_cons]; auto.
Qed.

Lemma search_inv_expand vis c work res work' :
  (∀ y, y ∈ work' ↔ y ∈ work ∨ (y ∈ nbrs adj c ∧ y ∉ {[c]} ∪ vis)) →
  c ∉ vis →
  search_inv adj s vis (c :: work) res →
  search_inv adj s ({[c]} ∪ vis) work' (res ++ [c]).
Proof.
  intros Hw' Hc (Hnd & Hres & Hvis & Hwork & Hcl & Hs).
  assert (Hrc : reachable adj s c) by (apply Hwork; left).
  split_and!.
  - apply NoDup_app. split_and!; [done| |apply NoDup_singleton].
    intros x Hx ->%list_elem_of_singleton. by apply Hc, Hres.
  - intros x. rewrite elem_of_app, list_elem_of_singleton, elem_of_union,
      elem_of_singleton, Hres. tauto.
  - intros x [->%elem_of_singleton|Hx]%elem_of_union; auto.
  - intros y [Hy|[Hy _]]%Hw'.
    + apply Hwork. by right.
    + eapply rtc_r; [exact Hrc | exact Hy].
  - intros x y [->%elem_of_singleton|Hx]%elem_of_union Hxy.
    + destruct (decide (y ∈ {[c]} ∪ vis)); [by left|].
      right. apply Hw'. right. done.
    + destruct (Hcl x y Hx Hxy) as [?|[->|?]%elem_of_cons].
      * left. apply elem_of_union. by right.
      * left. apply elem_of_union. left. by apply elem_of_singleton.
      * right. apply Hw'. by left.
  - destruct Hs as [?|[->|?]%elem_of_cons].
    + left. apply elem_of_union. by right.
    + left. apply elem_of_union. left. by apply elem_of_singleton.
    + right. apply Hw'. by left.
Qed.

Lemma search_inv_final vis res x :
  search_inv adj s vis [] res → x ∈ res ↔ reachable adj s x.
Proof.
  intros (Hnd & Hres & Hvis & _ & Hcl & Hs). rewrite Hres.
  split; [apply Hvis|].
  assert (Hsv : s ∈ vis) by (destruct Hs as [?|?%elem_of_nil]; done).
  assert (Hstep : ∀ a b, rtc (edge adj) a b → a ∈ vis → b ∈ vis).
  { induction 1 as [|a b c Hab _ IH]; [done|].
    intros Ha. apply IH.
    destruct (Hcl a b Ha Hab) as [?|?%elem_of_nil]; done. }
  intros Hreach. by eapply Hstep.
Qed.
End search.

Lemma graph_eta (g : Graph) : mkGraph (adjacency_list g) (directed g) = g.
Proof. by destruct g. Qed.

Section traversal_correct.
Variable g : Graph.
Variable s : vertex.
Hypothesis Hclosed : closed (adjacency_list g).
Hypothesis Hs : s ∈ keys (adjacency_list g).

Local Abbreviation adj := (adjacency_list g).

Lemma breadth_first_search_correct :
  ∃ r, breadth_first_search g s = Some (r, g) ∧
       NoDup r ∧ ∀ x, x ∈ r ↔ reachable adj s x.
Proof.
  unfold breadth_first_search.
  rewrite (proj2 (contains_true _ _) Hs). cbn [negb].
  destruct (bfs_loop_total (loop_fuel adj) adj ∅ [s] [])
    as [[[r vis'] adj'] Hrun]; [apply loop_fuel_enough|].
  rewrite Hrun. cbn [mbind option_bind].
  eapply (bfs_loop_rule adj Hclosed (search_inv adj s)) in Hrun
    as [-> Hinv].
  - exists r. rewrite graph_eta.
    split_and!; [done | apply Hinv |].
    intros x. by eapply search_inv_final.
  - intros vis c q res _. apply search_inv_skip.
  - intros vis c q res _. apply search_inv_expand.
    intros y. rewrite elem_of_app, list_elem_of_filter. tauto.
  - by apply Forall_singleton.
  - apply search_inv_init.
Qed.

Lemma depth_first_search_correct :
  ∃ r, depth_first_search g s = Some (r, g) ∧
       NoDup r ∧ ∀ x, x ∈ r ↔ reachable adj s x.
Proof.
  unfold depth_first_search.
  rewrite (proj2 (contains_true _ _) Hs). cbn [negb].
  destruct (dfs_loop_total (loop_fuel adj) adj ∅ [s] [])
    as [[[r vis'] adj'] Hrun]; [apply loop_fuel_enough|].
  rewrite Hrun. cbn [mbind option_bind].
  eapply (dfs_loop_rule adj Hclosed (search_inv adj s)) in Hrun
    as [-> Hinv].
  - exists r. rewrite graph_eta.
    split_and!; [done | apply Hinv |].
    intros x. by eapply search_inv_final.
  - intros vis c q res _. apply search_inv_skip.
  - intros vis c q res _. apply search_inv_expand.
    intros y. rewrite elem_of_app, list_elem_of_filter. tauto.
  - by apply Forall_singleton.
  - apply search_inv_init.
Qed.
End traversal_correct.

(** ** The recursive search and the recursion limit *)

Section recursion.
Variable adj : adjacency.
Implicit Types (visited vis : gset vertex) (v : vertex).

Lemma unvisited_le_length vis : unvisited adj vis ≤ length adj.
Proof.
  unfold unvisited, keys.
  etrans; [apply length_filter_le|]. by rewrite length_fmap.
Qed.

Lemma unvisited_mono vis vis' :
  vis ⊆ vis' → unvisited adj vis' ≤ unvisited adj vis.
Proof.
  intros Hsub. unfold unvisited.
  induction (keys adj) as [|k ks IH]; [done|].
  destruct (decide (k ∈ vis')) as [Hk'|Hk'].
  - rewrite (filter_cons_False _ _ ks) by (intros Hn; by apply Hn).
    destruct (decide (k ∈ vis)).
    + rewrite filter_cons_False by (intros Hn; by apply Hn). done.
    + rewrite filter_cons_True by done. simpl. lia.
  - rewrite !filter_cons_True; [simpl; lia| |done].
    intros Hk. apply Hk'. by apply Hsub.
Qed.

Lemma unvisited_visit vis v :
  v ∈ keys adj → v ∉ vis → unvisited adj ({[v]} ∪ vis) < unvisited adj vis.
Proof.
  intros Hv Hvis. unfold unvisited.
  induction (keys adj) as [|k ks IH]; [by apply elem_of_nil in Hv|].
  assert (Hle : length (filter (λ k, k ∉ {[v]} ∪ vis) ks)
                ≤ length (filter (λ k, k ∉ vis) ks)).
  { clear. induction ks as [|k ks IH]; [done|].
    destruct (decide (k ∈ vis)) as [Hk|Hk].
    - rewrite !filter_cons_False; [done| |].
      + intros Hn. by apply Hn.
      + intros Hn. apply Hn. apply elem_of_union. by right.
    - rewrite (filter_cons_True (λ k, k ∉ vis)) by done.
      destruct (decide (k ∈ {[v]} ∪ vis)).
      + rewrite filter_cons_False by (intros Hn; by apply Hn). simpl. lia.
      + rewrite filter_cons_True by done. simpl. lia. }
  destruct (decide (k = v)) as [->|Hne].
  - rewrite filter_cons_False.
    + rewrite filter_cons_True by done. simpl. lia.
    + intros Hn. apply Hn. apply elem_of_union. left. by apply elem_of_singleton.
  - apply elem_of_cons in Hv as [?|Hv]; [congruence|].
    specialize (IH Hv).
    destruct (decide (k ∈ vis)) as [Hk|Hk].
    + rewrite !filter_cons_False; [done| |].
      * intros Hn. by apply Hn.
      * intros Hn. apply Hn. apply elem_of_union. by right.
    + rewrite !filter_cons_True; [simpl; lia|done|].
      intros [Hkv%elem_of_singleton|?]%elem_of_union; done.
Qed.

Lemma for_neighbors_total frames ns vis acc :
  call_total adj frames → unvisited adj vis < frames →
  ∃ out vis', for_neighbors (dfs_recursive_call frames) ns adj vis acc
                = (Returned out, vis', adj) ∧ vis ⊆ vis'.
Proof.
  intros Hcall. revert vis acc.
  induction ns as [|n ns IH]; intros vis acc Hlt; simpl.
  - by exists acc, vis.
  - case_bool_decide; [by apply IH|].
    destruct (Hcall n vis Hlt) as (sub & vis1 & -> & Hsub).
    destruct (IH vis1 (acc ++ sub)) as (out & vis' & -> & Hsub').
    + pose proof (unvisited_mono vis vis1 Hsub). lia.
    + exists out, vis'. split; [done|]. by etrans.
Qed.

Lemma dfs_recursive_call_total frames : call_total adj frames.
Proof.
  induction frames as [|frames IH]; intros v vis Hlt; [lia|]. simpl.
  destruct (contains adj v) eqn:Hkey; simpl; [|by exists [], vis].
  apply contains_true in Hkey.
  case_bool_decide as Hvis; [by exists [], vis|].
  rewrite (getitem_key adj v Hkey).
  destruct (for_neighbors_total frames (nbrs adj v) ({[v]} ∪ vis) [v] IH)
    as (out & vis' & -> & Hsub).
  - pose proof (unvisited_visit vis v Hkey Hvis). lia.
  - exists out, vis'. split; [done|].
    etrans; [apply union_subseteq_r | exact Hsub].
Qed.

Lemma for_neighbors_framed frames ns vis acc r vis' adj' :
  call_framed adj frames →
  for_neighbors (dfs_recursive_call frames) ns adj vis acc = (r, vis', adj') →
  adj' = adj ∧ (r = RecursionError ∨ ∃ out, r = Returned out).
Proof.
  intros Hcall. revert vis acc.
  induction ns as [|n ns IH]; intros vis acc; simpl.
  - intros [= <- <- <-]. split; [done|]. right. by eexists.
  - case_bool_decide; [apply IH|].
    destruct (dfs_recursive_call frames adj n vis) as [[r1 vis1] adj1] eqn:Hrec.
    destruct (Hcall _ _ _ _ _ Hrec) as [-> [-> |[sub ->]]].
    + intros [= <- <- <-]. split; [done|]. by left.
    + apply IH.
Qed.

Lemma dfs_recursive_call_framed frames : call_framed adj frames.
Proof.
  induction frames as [|frames IH]; intros v vis r vis' adj'; simpl.
  { intros [= <- <- <-]. split; [done|]. by left. }
  destruct (contains adj v) eqn:Hkey; simpl.
  - apply contains_true in Hkey.
    case_bool_decide as Hvis.
    + intros [= <- <- <-]. split; [done|]. right. by eexists.
    + rewrite (getitem_key adj v Hkey). by apply for_neighbors_framed.
  - intros [= <- <- <-]. split; [done|]. right. by eexists.
Qed.
End recursion.

(** ** Every operation with a loop returns, on every mapping

    No invariant is assumed here: the fuel supplied by the public
    operations is enough whatever the mapping holds.  ([dfs_recursive] has
    no loop fuel; what it needs of the recursion limit is
    [dfs_recursive_call_total].) *)

Section totality.
Variable g : Graph.

Lemma breadth_first_search_total s : is_Some (breadth_first_search g s).
Proof.
  unfold breadth_first_search.
  destruct (contains (adjacency_list g) s); cbn [negb]; [|by eexists].
  destruct (bfs_loop_total (loop_fuel (adjacency_list g)) (adjacency_list g) ∅ [s] [])
    as [[[r vis] adj'] ->]; [apply loop_fuel_enough | by eexists].
Qed.

Lemma depth_first_search_total s : is_Some (depth_first_search g s).
Proof.
  unfold depth_first_search.
  destruct (contains (adjacency_list g) s); cbn [negb]; [|by eexists].
  destruct (dfs_loop_total (loop_fuel (adjacency_list g)) (adjacency_list g) ∅ [s] [])
    as [[[r vis] adj'] ->]; [apply loop_fuel_enough | by eexists].
Qed.

Lemma find_path_bfs_total s t : is_Some (find_path_bfs g s t).
Proof.
  unfold find_path_bfs.
  destruct (negb _ || negb _); [by eexists|].
  case_decide; [by eexists|].
  destruct (find_path_bfs_loop_total (loop_fuel (adjacency_list g))
              (adjacency_list g) t ∅ [(s, [s])])
    as [[r adj'] ->]; [apply loop_fuel_enough | by eexists].
Qed.

Lemma find_path_dfs_total s t : is_Some (find_path_dfs g s t).
Proof.
  unfold find_path_dfs.
  destruct (negb _ || negb _); [by eexists|].
  case_decide; [by eexists|].
  destruct (find_path_dfs_loop_total (loop_fuel (adjacency_list g))
              (adjacency_list g) t ∅ [(s, [s])])
    as [[r adj'] ->]; [apply loop_fuel_enough | by eexists].
Qed.

Lemma components_loop_total size0 vs adj vis comps :
  is_Some (components_loop size0 vs adj vis comps).
Proof.
  revert adj vis comps.
  induction vs as [|v vs IH]; intros adj vis comps; cbn [components_loop];
    case_bool_decide; try by eexists.
  case_bool_decide; [apply IH|].
  destruct (bfs_loop_total (loop_fuel adj) adj vis [v] [])
    as [[[component vis'] adj'] ->]; [apply loop_fuel_enough | apply IH].
Qed.

Lemma connected_components_bfs_total : is_Some (connected_components_bfs g).
Proof.
  unfold connected_components_bfs.
  destruct (components_loop_total (length (adjacency_list g))
              (keys (adjacency_list g)) (adjacency_list g) ∅ [])
    as [[r adj'] ->]. by eexists.
Qed.

Lemma is_connected_total : is_Some (is_connected g).
Proof.
  unfold is_connected.
  destruct (keys (adjacency_list g)) as [|first rest]; [by eexists|].
  destruct (breadth_first_search_total first) as [[r g'] ->]. by eexists.
Qed.
End totality.

(** ** The explicit stack simulates the recursion *)

Lemma dfs_loop_fuel_mono fuel fuel' adj (vis : gset vertex) st res x :
  fuel ≤ fuel' →
  dfs_loop fuel adj vis st res = Some x →
  dfs_loop fuel' adj vis st res = Some x.
Proof.
  revert adj fuel' vis st res.
  induction fuel as [|fuel IH]; intros adj fuel' vis st res Hle; [done|].
  destruct fuel' as [|fuel']; [lia|]. simpl.
  destruct st as [|c st]; [done|].
  case_bool_decide; [apply IH; lia|].
  destruct (getitem adj c). apply IH. lia.
Qed.

Section dfs_equivalence.
Variable adj : adjacency.
Hypothesis Hclosed : closed adj.
Implicit Types (vis seen : gset vertex) (v c : vertex).

Lemma dfs_loop_step fuel vis c st res :
  c ∈ keys adj →
  dfs_loop (S fuel) adj vis (c :: st) res =
  if bool_decide (c ∈ vis) then dfs_loop fuel adj vis st res
  else dfs_loop fuel adj ({[c]} ∪ vis)
         (filter (λ n, n ∉ {[c]} ∪ vis) (nbrs adj c) ++ st) (res ++ [c]).
Proof.
  intros Hc. simpl. case_bool_decide; [done|].
  by rewrite (getitem_key adj c Hc), push_unvisited_reverse.
Qed.

Lemma for_neighbors_simulated frames ns vis acc out vis' adj' seen :
  call_simulated adj frames →
  Forall (λ n, n ∈ keys adj) ns → seen ⊆ vis →
  for_neighbors (dfs_recursive_call frames) ns adj vis acc
    = (Returned out, vis', adj') →
  adj' = adj ∧ vis ⊆ vis' ∧
  ∃ sub, out = acc ++ sub ∧
         simulates adj vis vis' (filter (λ n, n ∉ seen) ns) sub.
Proof.
  intros Hcall. revert vis acc.
  induction ns as [|n ns IH]; intros vis acc Hkeys Hseen; simpl.
  - intros [= <- <- <-]. split_and!; [done..|].
    exists []. split; [by rewrite app_nil_r|].
    exists 0. intros fuel' st res. by rewrite app_nil_r.
  - apply Forall_cons in Hkeys as [Hn Hkeys].
    case_bool_decide as Hvis.
    + intros Hrun. destruct (IH vis acc Hkeys Hseen Hrun)
        as (-> & Hsub & sub & -> & k & Hk).
      split_and!; [done..|]. exists sub. split; [done|].
      destruct (decide (n ∈ seen)).
      * rewrite filter_cons_False by (intros Hx; by apply Hx). by exists k.
      * rewrite filter_cons_True by done.
        exists (S k). intros fuel' st res. cbn [app Nat.add].
        rewrite (dfs_loop_step _ _ _ _ _ Hn), bool_decide_true by done.
        apply Hk.
    + destruct (dfs_recursive_call frames adj n vis)
        as [[[sub1| |] vis1] adj1] eqn:Hrec; [|done..].
      destruct (Hcall n vis sub1 vis1 adj1 Hn Hrec) as (-> & Hsub1 & k1 & Hk1).
      intros Hrun.
      destruct (IH vis1 (acc ++ sub1) Hkeys (transitivity Hseen Hsub1) Hrun)
        as (-> & Hsub2 & sub2 & -> & k2 & Hk2).
      split_and!; [done | by etrans |].
      exists (sub1 ++ sub2). split; [by rewrite app_assoc|].
      rewrite filter_cons_True by (intros Hx; apply Hvis; by apply Hseen).
      exists (k1 + k2). intros fuel' st res.
      rewrite <-Nat.add_assoc.
      change ((n :: ?l) ++ st) with ([n] ++ (l ++ st)).
      by rewrite Hk1, Hk2, app_assoc.
Qed.

Lemma dfs_recursive_call_simulated frames : call_simulated adj frames.
Proof.
  induction frames as [|frames IH]; intros v vis sub vis' adj' Hv; [done|]. simpl.
  rewrite (proj2 (contains_true _ _) Hv). cbn [negb orb].
  case_bool_decide as Hvis.
  - intros [= <- <- <-]. split_and!; [done..|].
    exists 1. intros fuel' st res. cbn [app Nat.add].
    by rewrite (dfs_loop_step _ _ _ _ _ Hv), bool_decide_true, app_nil_r by done.
  - rewrite (getitem_key adj v Hv). intros Hrun.
    apply (for_neighbors_simulated _ _ _ _ _ _ _ ({[v]} ∪ vis) IH) in Hrun
      as (-> & Hsub & sub' & -> & k & Hk);
      [|apply Forall_forall; intros n Hn; by eapply closed_nbrs|done].
    split_and!; [done | etrans; [apply union_subseteq_r | done] |].
    exists (S k). intros fuel' st res. cbn [app Nat.add].
    rewrite (dfs_loop_step _ _ _ _ _ Hv), bool_decide_false by done.
    by rewrite Hk, <-app_assoc.
Qed.
End dfs_equivalence.

Lemma dfs_recursive_vs_iterative (limit : nat) (g : Graph) (s : vertex) :
  closed (adjacency_list g) →
  ∃ r, depth_first_search g s = Some (r, g) ∧
       (dfs_recursive limit g s None = (Returned r, g) ∨
        dfs_recursive limit g s None = (RecursionError, g)) ∧
       (length (adjacency_list g) ≤ limit →
        dfs_recursive limit g s None = (Returned r, g)).
Proof.
  intros Hclosed. unfold depth_first_search, dfs_recursive.
  destruct (contains (adjacency_list g) s) eqn:Hkey; cbn [negb].
  - apply contains_true in Hkey.
    destruct (dfs_loop_total (loop_fuel (adjacency_list g)) (adjacency_list g) ∅ [s] [])
      as [[[r vis2] adj2] Hloop]; [apply loop_fuel_enough|].
    assert (Hsame : ∀ sub vis',
      dfs_recursive_call (S limit) (adjacency_list g) s ∅
        = (Returned sub, vis', adjacency_list g) →
      sub = r ∧ adj2 = adjacency_list g).
    { intros sub vis' Hrec.
      destruct (dfs_recursive_call_simulated _ Hclosed _ _ _ _ _ _ Hkey Hrec)
        as (_ & _ & k & Hk).
      specialize (Hk 1 [] []). cbn [app dfs_loop] in Hk.
      apply (dfs_loop_fuel_mono _ (k + 1 + loop_fuel (adjacency_list g))) in Hk; [|lia].
      pose proof Hloop as Hloop'.
      apply (dfs_loop_fuel_mono _ (k + 1 + loop_fuel (adjacency_list g))) in Hloop'; [|lia].
      rewrite Hk in Hloop'. by injection Hloop' as <- <- <-. }
    assert (Hstack : Forall (is_key (adjacency_list g)) [s]) by by constructor.
    destruct (dfs_loop_rule _ Hclosed (λ _ _ _, True) (λ _ _ _ _ _ _ _, I)
                (λ _ _ _ _ _ _ _, I) _ _ _ _ _ _ _ Hstack I Hloop) as [-> _].
    cbn [default]. rewrite Hloop. cbn [mbind option_bind]. rewrite graph_eta.
    exists r. split; [done|].
    destruct (dfs_recursive_call (S limit) (adjacency_list g) s ∅)
      as [[r1 vis'] adj'] eqn:Hrec.
    destruct (dfs_recursive_call_framed _ _ _ _ _ _ _ Hrec) as [-> Hr1].
    rewrite graph_eta. split.
    + destruct Hr1 as [-> |[sub ->]]; [by right|].
      destruct (Hsame _ _ eq_refl) as [-> _]. by left.
    + intros Hlen.
      destruct (dfs_recursive_call_total (adjacency_list g) (S limit) s ∅)
        as (sub & vis'' & Hrec' & _).
      { pose proof (unvisited_le_length (adjacency_list g) ∅). lia. }
      rewrite Hrec in Hrec'. injection Hrec' as -> ->.
      by destruct (Hsame _ _ eq_refl) as [-> _].
  - exists []. cbn [dfs_recursive_call default]. rewrite Hkey.
    cbn [negb orb]. rewrite graph_eta. split_and!; [done | by left | done].
Qed.

(** ** Paths *)

Section walks.
Variable adj : adjacency.
Implicit Types (p q w : path) (c n x y : vertex).

Lemma walk_singleton x : walk adj [x].
Proof. intros i u v _ Hv. by destruct i. Qed.

Lemma walk_snoc p c n :
  walk adj p → last p = Some c → edge adj c n → walk adj (p ++ [n]).
Proof.
  intros Hp Hlast Hedge i u v Hu Hv.
  destruct (decide (S i < length p)) as [Hlt|Hge].
  - rewrite lookup_app_l in Hu by lia. rewrite lookup_app_l in Hv by lia. eauto.
  - assert (S i = length p) as Hi.
    { apply lookup_lt_Some in Hv. rewrite length_app in Hv. simpl in Hv. lia. }
    rewrite lookup_app_l in Hu by lia.
    rewrite lookup_app_r in Hv by lia.
    rewrite Hi, Nat.sub_diag in Hv. simpl in Hv.
    rewrite last_lookup, <-Hi in Hlast. simpl in Hlast. congruence.
Qed.

Lemma walk_app_l p q : walk adj (p ++ q) → walk adj p.
Proof.
  intros Hw i u v Hu Hv. apply (Hw i).
  - by apply lookup_app_l_Some.
  - by apply lookup_app_l_Some.
Qed.

Lemma walk_middle p y x q : walk adj (p ++ y :: x :: q) → edge adj y x.
Proof.
  intros Hw. apply (Hw (length p)).
  - by rewrite list_lookup_middle.
  - rewrite lookup_app_r by lia.
    replace (S (length p) - length p) with 1 by lia. done.
Qed.

Lemma head_snoc p x : head (p ++ [x]) = Some (default x (head p)).
Proof. by destruct p. Qed.

Lemma head_app_nonempty p q x : head p = Some x → head (p ++ q) = Some x.
Proof. by destruct p. Qed.
End walks.

(** ** Both path searches return simple paths *)

Section path_sound.
Variable adj : adjacency.
Variables s target : vertex.
Hypothesis Hne : s ≠ target.

Lemma entry_ok_mono vis vis' e : vis ⊆ vis' → entry_ok adj s target vis e → entry_ok adj s target vis' e.
Proof.
  intros Hsub (q & ? & ? & ? & ? & Hq & ?). exists q. split_and!; try done.
  intros x Hx. by apply Hsub, Hq.
Qed.

Lemma path_inv_init : path_inv adj s target ∅ [(s, [s])].
Proof.
  split; [apply not_elem_of_empty|]. apply Forall_singleton.
  exists []. simpl.
  split_and!; [done | done | apply walk_singleton | apply NoDup_singleton | | done].
  by intros x ?%elem_of_nil.
Qed.

Lemma path_inv_skip vis e work : path_inv adj s target vis (e :: work) → path_inv adj s target vis work.
Proof. intros [Ht Hw]. split; [done|]. by apply Forall_cons in Hw as [_ ?]. Qed.

Lemma entry_ok_extend vis c p n :
  entry_ok adj s target vis (c, p) → n ∈ nbrs adj c → n ∉ {[c]} ∪ vis → n ≠ target →
  entry_ok adj s target ({[c]} ∪ vis) (extend p n).
Proof.
  intros (q & Hp & Hhead & Hwalk & Hnd & Hq & Hc) Hn Hvis Hnt. simpl in *.
  assert (Hpvis : ∀ x, x ∈ p → x ∈ {[c]} ∪ vis).
  { intros x. rewrite Hp, elem_of_app, list_elem_of_singleton, elem_of_union,
      elem_of_singleton. intros [?%Hq| ->]; auto. }
  exists p. simpl. split_and!; try done.
  - by apply head_app_nonempty.
  - apply (walk_snoc _ _ c); [done| |done]. rewrite Hp. apply last_snoc.
  - apply NoDup_app. split_and!; [done| |apply NoDup_singleton].
    intros x Hx ->%list_elem_of_singleton. by apply Hvis, Hpvis.
Qed.

Lemma path_inv_expand vis c p work work' :
  (∀ e, e ∈ work' →
     e ∈ work ∨ e ∈ extend p <$> filter (λ n, n ∉ {[c]} ∪ vis) (nbrs adj c)) →
  target ∉ nbrs adj c →
  path_inv adj s target vis ((c, p) :: work) → path_inv adj s target ({[c]} ∪ vis) work'.
Proof.
  intros Hw' Ht [Htv [Hcp Hwork]%Forall_cons]. split.
  - destruct Hcp as (_ & _ & _ & _ & _ & _ & Hc). simpl in Hc.
    intros [->%elem_of_singleton|?]%elem_of_union; done.
  - apply Forall_forall. intros e [He|He]%Hw'.
    + rewrite Forall_forall in Hwork.
      eapply entry_ok_mono; [apply union_subseteq_r | by apply Hwork].
    + apply list_elem_of_fmap in He as (n & -> & [Hnv Hn]%list_elem_of_filter).
      apply entry_ok_extend; [done..|]. by intros ->.
Qed.

Lemma path_inv_found vis c p work :
  target ∈ nbrs adj c →
  path_inv adj s target vis ((c, p) :: work) → simple_path adj s target (Some (p ++ [target])).
Proof.
  intros Ht [Htv [Hcp _]%Forall_cons] r [= <-].
  destruct Hcp as (q & Hp & Hhead & Hwalk & Hnd & Hq & Hc). simpl in *.
  split; [split_and!|].
  - by apply head_app_nonempty.
  - apply last_snoc.
  - apply (walk_snoc _ _ c); [done| |done]. rewrite Hp. apply last_snoc.
  - apply NoDup_app. split_and!; [done| |apply NoDup_singleton].
    intros x Hx ->%list_elem_of_singleton.
    rewrite Hp, elem_of_app, list_elem_of_singleton in Hx.
    destruct Hx as [?%Hq| ->]; done.
Qed.

Lemma simple_path_None : simple_path adj s target None.
Proof. by intros p. Qed.
End path_sound.

(** ** The breadth-first path search returns a shortest path *)

Section bfs_shortest.
Variable adj : adjacency.
Variables s target : vertex.
Hypothesis Hne : s ≠ target.
Implicit Types (vis : gset vertex) (queue : list (vertex * path)).

Lemma tfree_walk_snoc_inv u y x :
  tfree_walk adj s target (u ++ [y; x]) x → tfree_walk adj s target (u ++ [y]) y ∧ edge adj y x.
Proof.
  intros (Hhead & _ & Hwalk & Hfree). split; [split_and!|].
  - rewrite head_snoc in *. by destruct u.
  - apply last_snoc.
  - apply (walk_app_l _ _ [x]). by rewrite <-app_assoc.
  - intros Hin. apply Hfree.
    change (u ++ [y; x]) with (u ++ [y] ++ [x]). rewrite app_assoc.
    apply elem_of_app. by left.
  - by apply (walk_middle _ u y x []).
Qed.

(** Every walk to an unvisited vertex is at least as long as the path of
    some queue entry. *)
Lemma frontier vis queue u x :
  bfs_inv adj s target vis queue → tfree_walk adj s target u x → x ∉ vis →
  ∃ e, e ∈ queue ∧ length e.2 ≤ length u.
Proof.
  intros (_ & _ & _ & Hs & Hcl). revert x.
  induction u as [|x' u IH] using rev_ind; intros x Hw Hx.
  { by destruct Hw as [[=] _]. }
  assert (x' = x) as ->.
  { destruct Hw as (_ & Hlast & _). rewrite last_snoc in Hlast. congruence. }
  destruct u as [|y u _] using rev_ind.
  - destruct Hw as ([= ->] & _). destruct Hs as [?|Hs]; [done|].
    exists (s, [s]). split; [done|]. simpl. lia.
  - assert (Hxt : x ≠ target).
    { intros ->. destruct Hw as (_ & _ & _ & Hfree). apply Hfree.
      apply elem_of_app. right. by apply list_elem_of_singleton. }
    rewrite <-app_assoc in Hw. simpl in Hw.
    apply tfree_walk_snoc_inv in Hw as [Hwy Hedge].
    destruct (decide (y ∈ vis)) as [Hy|Hy].
    + destruct (Hcl y x Hy Hedge Hxt) as [?|(p & Hin & Hlen)]; [done|].
      exists (x, p). split; [done|]. simpl.
      specialize (Hlen _ Hwy). rewrite !length_app in *. simpl in *. lia.
    + destruct (IH y Hwy Hy) as (e & He & Hlen).
      exists e. split; [done|]. rewrite length_app. simpl. lia.
Qed.

Lemma head_minimal c p queue e :
  StronglySorted level_le ((c, p) :: queue) → e ∈ (c, p) :: queue →
  length p ≤ length e.2.
Proof.
  intros [Hall _]%StronglySorted_cons [->|He]%elem_of_cons; [done|].
  rewrite Forall_forall in Hall. by destruct (Hall e He).
Qed.

(** The path of the entry being expanded is no longer than any
    target-free walk to the same vertex. *)
Lemma expanded_optimal vis c p queue u :
  bfs_inv adj s target vis ((c, p) :: queue) → c ∉ vis → tfree_walk adj s target u c →
  length p ≤ length u.
Proof.
  intros Hinv Hc Hu.
  destruct (frontier _ _ _ _ Hinv Hu Hc) as (e & He & Hlen).
  destruct Hinv as (_ & Hsorted & _).
  pose proof (head_minimal _ _ _ _ Hsorted He). lia.
Qed.

Lemma bfs_inv_init : bfs_inv adj s target ∅ [(s, [s])].
Proof.
  split_and!.
  - apply Forall_singleton. split_and!; simpl; [done | done | apply walk_singleton |].
    by intros ->%list_elem_of_singleton.
  - apply StronglySorted_cons. split; [apply Forall_nil_2 | constructor].
  - by intros y ?%not_elem_of_empty.
  - right. left.
  - by intros y n ?%not_elem_of_empty.
Qed.

Lemma bfs_inv_skip vis c p queue :
  c ∈ vis → bfs_inv adj s target vis ((c, p) :: queue) → bfs_inv adj s target vis queue.
Proof.
  intros Hc (Hwalks & Hsorted & Hnt & Hs & Hcl). split_and!.
  - by apply Forall_cons in Hwalks as [_ ?].
  - by apply StronglySorted_cons in Hsorted as [_ ?].
  - done.
  - destruct Hs as [?|[[= <- <-]|?]%elem_of_cons]; auto.
  - intros y n Hy Hn Hnt'.
    destruct (Hcl y n Hy Hn Hnt') as [?|(q & [[= -> ->]|Hin]%elem_of_cons & Hlen)];
      [by left | by left | right; eauto].
Qed.

Lemma bfs_inv_expand vis c p queue :
  c ∉ vis → target ∉ nbrs adj c →
  bfs_inv adj s target vis ((c, p) :: queue) →
  bfs_inv adj s target ({[c]} ∪ vis)
    (queue ++ (extend p <$> filter (λ n, n ∉ {[c]} ∪ vis) (nbrs adj c))).
Proof.
  intros Hc Ht Hinv.
  pose proof (expanded_optimal vis c p queue) as Hopt.
  specialize (λ u, Hopt u Hinv Hc).
  destruct Hinv as (Hwalks & Hsorted & Hnt & Hs & Hcl).
  apply Forall_cons in Hwalks as [(Hhead & Hlast & Hwalk & Hfree) Hwalks].
  apply StronglySorted_cons in Hsorted as [Hlevel Hsorted]. simpl in *.
  split_and!.
  - apply Forall_app. split; [done|].
    apply Forall_fmap, Forall_forall.
    intros n [_ Hn]%list_elem_of_filter. simpl. split_and!.
    + by apply head_app_nonempty.
    + apply last_snoc.
    + by apply (walk_snoc _ _ c).
    + rewrite elem_of_app, list_elem_of_singleton.
      intros [?| ->]; done.
  - apply StronglySorted_app. split_and!; [|done|].
    + intros a b Ha (n & -> & _)%list_elem_of_fmap.
      rewrite Forall_forall in Hlevel.
      destruct (Hlevel a Ha) as [Hlo Hhi]. unfold level_le in *. simpl in *.
      rewrite length_app. simpl. lia.
    + induction (filter _ _) as [|n ns IH]; [constructor|].
      rewrite fmap_cons. apply StronglySorted_cons. split; [|done].
      apply Forall_fmap, Forall_forall. intros m _.
      unfold level_le. simpl. rewrite !length_app. simpl. lia.
  - intros y [->%elem_of_singleton|?]%elem_of_union; auto.
  - destruct Hs as [?|[[= <- <-]|?]%elem_of_cons].
    + left. apply elem_of_union. by right.
    + left. apply elem_of_union. left. by apply elem_of_singleton.
    + right. apply elem_of_app. by left.
  - intros y n Hy Hn Hnt'.
    destruct (decide (n ∈ {[c]} ∪ vis)) as [?|Hnv]; [by left|]. right.
    apply elem_of_union in Hy as [->%elem_of_singleton|Hy].
    + exists (p ++ [n]). split.
      * apply elem_of_app. right. apply list_elem_of_fmap.
        exists n. split; [done|]. by apply list_elem_of_filter.
      * intros u Hu. specialize (Hopt u Hu). rewrite length_app. simpl. lia.
    + destruct (Hcl y n Hy Hn Hnt') as [?|(q & [[= -> ->]|Hin]%elem_of_cons & Hlen)].
      * exfalso. apply Hnv. apply elem_of_union. by right.
      * exfalso. apply Hnv. apply elem_of_union. left. by apply elem_of_singleton.
      * exists q. split; [|done]. apply elem_of_app. by left.
Qed.

(** The part of a path to the target that precedes the first occurrence
    of the target. *)
Lemma first_arrival w :
  path_from_to adj s target w →
  ∃ u y, tfree_walk adj s target u y ∧ target ∈ nbrs adj y ∧ S (length u) ≤ length w.
Proof.
  intros (Hhead & Hlast & Hwalk).
  assert (Hin : target ∈ w) by (by eapply last_Some_elem_of).
  apply list_elem_of_split_l in Hin as (l1 & l2 & -> & Hfree).
  destruct l1 as [|y l1 _] using rev_ind.
  { simpl in Hhead. congruence. }
  exists (l1 ++ [y]), y. split_and!.
  - split_and!; [|apply last_snoc| |done].
    + rewrite <-Hhead, <-app_assoc. by destruct l1.
    + by eapply walk_app_l.
  - rewrite <-app_assoc in Hwalk. by apply walk_middle in Hwalk.
  - rewrite !length_app. simpl. lia.
Qed.

Lemma bfs_inv_found vis c p queue :
  c ∉ vis → target ∈ nbrs adj c →
  bfs_inv adj s target vis ((c, p) :: queue) → shortest adj s target (Some (p ++ [target])).
Proof.
  intros Hc Ht Hinv. split.
  - destruct Hinv as ([(Hhead & Hlast & Hwalk & _) _]%Forall_cons & _).
    simpl in *. split_and!.
    + by apply head_app_nonempty.
    + apply last_snoc.
    + by apply (walk_snoc _ _ c).
  - intros w (u & y & Hu & Hy & Hlen)%first_arrival.
    assert (Hyv : y ∉ vis).
    { intros Hyv. destruct Hinv as (_ & _ & Hnt & _). by apply (Hnt y). }
    destruct (frontier _ _ _ _ Hinv Hu Hyv) as (e & He & Hle).
    destruct Hinv as (_ & Hsorted & _).
    pose proof (head_minimal _ _ _ _ Hsorted He).
    rewrite length_app. simpl. lia.
Qed.

Lemma bfs_inv_empty vis : bfs_inv adj s target vis [] → shortest adj s target None.
Proof.
  intros Hinv w (u & y & Hu & Hy & Hlen)%first_arrival.
  assert (Hyv : y ∉ vis).
  { intros Hyv. destruct Hinv as (_ & _ & Hnt & _). by apply (Hnt y). }
  destruct (frontier _ _ _ _ Hinv Hu Hyv) as (e & He%elem_of_nil & _). done.
Qed.
End bfs_shortest.

(** ** The path searches, end to end *)

Section find_path_correct.
Variable g : Graph.
Variables s target : vertex.
Hypothesis Hclosed : closed (adjacency_list g).

Local Abbreviation adj := (adjacency_list g).

Lemma simple_path_trivial : simple_path adj s s (Some [s]).
Proof.
  intros p [= <-]. split; [split_and!|]; [done | done | apply walk_singleton |].
  apply NoDup_singleton.
Qed.

Lemma shortest_trivial : shortest adj s s (Some [s]).
Proof.
  split.
  - split_and!; [done | done | apply walk_singleton].
  - intros w (Hhead & _). destruct w; [done|]. simpl. lia.
Qed.

Lemma find_path_unknown :
  s ∉ keys adj ∨ target ∉ keys adj →
  find_path_bfs g s target = Some (None, g) ∧
  find_path_dfs g s target = Some (None, g).
Proof.
  intros Hunknown. unfold find_path_bfs, find_path_dfs.
  assert (negb (contains adj s) || negb (contains adj target) = true) as ->; [|done].
  apply orb_true_iff.
  destruct Hunknown as [H|H]; [left|right];
    apply negb_true_iff; by apply contains_false.
Qed.

Lemma find_path_bfs_correct :
  s ∈ keys adj → target ∈ keys adj →
  ∃ r, find_path_bfs g s target = Some (r, g) ∧
       shortest adj s target r ∧ simple_path adj s target r.
Proof.
  intros Hs Ht. unfold find_path_bfs.
  rewrite (proj2 (contains_true _ _) Hs), (proj2 (contains_true _ _) Ht).
  cbn [negb orb].
  destruct (decide (s = target)) as [<-|Hne].
  { exists (Some [s]). split_and!; [done | apply shortest_trivial | apply simple_path_trivial]. }
  destruct (find_path_bfs_loop_total (loop_fuel adj) adj target ∅ [(s, [s])])
    as [[r adj'] Hrun]; [apply loop_fuel_enough|].
  rewrite Hrun. cbn [mbind option_bind].
  assert (Hkeys : Forall (λ e : vertex * path, e.1 ∈ keys adj) [(s, [s])])
    by (by apply Forall_singleton).
  assert (adj' = adj ∧ shortest adj s target r) as [-> Hshort].
  { eapply (find_path_bfs_loop_rule adj Hclosed target (bfs_inv adj s target));
      [..|exact Hrun].
    - intros vis c p q _. apply bfs_inv_skip.
    - intros vis c p q _. by apply bfs_inv_expand.
    - intros vis c p q _. by apply bfs_inv_found.
    - by apply bfs_inv_empty.
    - exact Hkeys.
    - by apply bfs_inv_init. }
  assert (adj = adj ∧ simple_path adj s target r) as [_ Hsimple].
  { eapply (find_path_bfs_loop_rule adj Hclosed target (path_inv adj s target));
      [..|exact Hrun].
    - intros vis c p q _ _. apply path_inv_skip.
    - intros vis c p q _ _. apply path_inv_expand; [done|].
      intros e. rewrite elem_of_app. tauto.
    - intros vis c p q _ _. by apply path_inv_found.
    - intros. apply simple_path_None.
    - exact Hkeys.
    - by apply path_inv_init. }
  exists r. by rewrite graph_eta.
Qed.

Lemma find_path_dfs_correct :
  s ∈ keys adj → target ∈ keys adj →
  ∃ r, find_path_dfs g s target = Some (r, g) ∧ simple_path adj s target r.
Proof.
  intros Hs Ht. unfold find_path_dfs.
  rewrite (proj2 (contains_true _ _) Hs), (proj2 (contains_true _ _) Ht).
  cbn [negb orb].
  destruct (decide (s = target)) as [<-|Hne].
  { exists (Some [s]). split; [done | apply simple_path_trivial]. }
  destruct (find_path_dfs_loop_total (loop_fuel adj) adj target ∅ [(s, [s])])
    as [[r adj'] Hrun]; [apply loop_fuel_enough|].
  rewrite Hrun. cbn [mbind option_bind].
  assert (adj' = adj ∧ simple_path adj s target r) as [-> Hsimple].
  { eapply (find_path_dfs_loop_rule adj Hclosed target (path_inv adj s target));
      [..|exact Hrun].
    - intros vis c p q _ _. apply path_inv_skip.
    - intros vis c p q _ _. apply path_inv_expand; [done|].
      intros e. rewrite elem_of_app, elem_of_reverse. tauto.
    - intros vis c p q _ _. by apply path_inv_found.
    - intros. apply simple_path_None.
    - by apply Forall_singleton.
    - by apply path_inv_init. }
  exists r. by rewrite graph_eta.
Qed.
End find_path_correct.

(** ** Connected components partition the vertex set *)

Lemma elem_of_concat_lookup {A} (l : list (list A)) k d x :
  l !! k = Some d → x ∈ d → x ∈ concat l.
Proof.
  revert k. induction l as [|d0 l IH]; intros k Hk Hx; [done|].
  simpl. apply elem_of_app.
  destruct k as [|k]; simpl in Hk; simplify_eq; [by left | right; eauto].
Qed.

(** In a list of lists whose concatenation has no repetition, an element
    belongs to at most one of the lists. *)
Lemma concat_unique {A} (l : list (list A)) i j c c' x :
  NoDup (concat l) →
  l !! i = Some c → l !! j = Some c' → x ∈ c → x ∈ c' → i = j.
Proof.
  revert i j.
  induction l as [|c0 l IH]; intros i j Hnd Hi Hj Hx Hx'; [done|].
  simpl in Hnd. apply NoDup_app in Hnd as (_ & Hdisj & Hnd).
  destruct i as [|i], j as [|j]; simpl in *; simplify_eq.
  - done.
  - exfalso. eapply Hdisj; [exact Hx|]. by eapply elem_of_concat_lookup.
  - exfalso. eapply Hdisj; [exact Hx'|]. by eapply elem_of_concat_lookup.
  - f_equal. by eapply IH.
Qed.

Section components.
Variable adj : adjacency.
Hypothesis Hclosed : closed adj.
Implicit Types (vis : gset vertex) (comps : list (list vertex)).

Lemma component_scan fuel vis0 v out vis' adj' :
  v ∈ keys adj →
  bfs_loop fuel adj vis0 [v] [] = Some (out, vis', adj') →
  adj' = adj ∧ comp_inv adj vis0 v vis' [] out.
Proof.
  intros Hv Hrun.
  eapply (bfs_loop_rule adj Hclosed (comp_inv adj vis0 v)); [..|exact Hrun].
  - intros vis c q res _ Hc (Hnd & Hvis & Hres & Hseed).
    split_and!; [done..|].
    destruct Hseed as [?|[->|?]%elem_of_cons]; auto.
  - intros vis c q res Hkey Hc (Hnd & Hvis & Hres & Hseed).
    split_and!.
    + apply NoDup_app. split_and!; [done| |apply NoDup_singleton].
      intros x Hx ->%list_elem_of_singleton. apply Hc, Hvis. by right.
    + intros x. rewrite elem_of_union, elem_of_singleton, elem_of_app,
        list_elem_of_singleton, Hvis. tauto.
    + intros x [Hx| ->%list_elem_of_singleton]%elem_of_app; [by apply Hres|].
      split; [|done]. intros Hx. apply Hc, Hvis. by left.
    + destruct Hseed as [?|[->|?]%elem_of_cons].
      * left. apply elem_of_union. by right.
      * left. apply elem_of_union. left. by apply elem_of_singleton.
      * right. apply elem_of_app. by left.
  - by apply Forall_singleton.
  - split_and!; [apply NoDup_nil_2 | | | right; left].
    + intros x. split; [by left|]. by intros [?|?%elem_of_nil].
    + by intros x ?%elem_of_nil.
Qed.

Lemma components_loop_correct vs vis comps :
  Forall (λ v, v ∈ keys adj) vs →
  NoDup (concat comps) →
  (∀ x, x ∈ vis ↔ x ∈ concat comps) →
  (∀ x, x ∈ concat comps → x ∈ keys adj) →
  ∃ out, components_loop (length adj) vs adj vis comps
           = Some (Returned out, adj) ∧
         NoDup (concat out) ∧
         (∀ x, x ∈ vs → x ∈ concat out) ∧
         (∀ x, x ∈ concat comps → x ∈ concat out) ∧
         (∀ x, x ∈ concat out → x ∈ keys adj).
Proof.
  revert vis comps.
  induction vs as [|v vs IH]; intros vis comps Hvs Hnd Hvis Hkeys;
    cbn [components_loop]; rewrite bool_decide_false by (intros Hn; by apply Hn).
  { exists comps. split_and!; try done. by intros x ?%elem_of_nil. }
  apply Forall_cons in Hvs as [Hv Hvs].
  case_bool_decide as Hseen.
  - destruct (IH vis comps Hvs Hnd Hvis Hkeys) as (out & -> & ? & Hin & Hold & ?).
    exists out. split_and!; try done.
    intros x [->|?]%elem_of_cons; [|by apply Hin]. by apply Hold, Hvis.
  - destruct (bfs_loop_total (loop_fuel adj) adj vis [v] [])
      as [[[component vis'] adj'] Hrun]; [apply loop_fuel_enough|].
    rewrite Hrun.
    apply component_scan in Hrun as (-> & Hcnd & Hcvis & Hcres & Hseed); [|done].
    assert (Hvc : v ∈ component).
    { destruct Hseed as [Hin|?%elem_of_nil]; [|done].
      apply Hcvis in Hin as [?|?]; done. }
    destruct component as [|c0 component']; [by apply elem_of_nil in Hvc|].
    set (component := c0 :: component') in *.
    destruct (IH vis' (comps ++ [component])) as (out & -> & ? & Hin & Hold & ?).
    + done.
    + rewrite concat_app. simpl. rewrite app_nil_r.
      apply NoDup_app. split_and!; [done| |done].
      intros x Hx Hxc. destruct (Hcres x Hxc) as [Hnot _]. by apply Hnot, Hvis.
    + intros x. rewrite concat_app. simpl.
      rewrite app_nil_r, elem_of_app, Hcvis, Hvis. done.
    + intros x. rewrite concat_app. simpl.
      rewrite app_nil_r, elem_of_app. intros [?|Hx]; [by apply Hkeys|].
      by apply Hcres.
    + exists out. split_and!; try done.
      * intros x [->|?]%elem_of_cons; [|by apply Hin].
        apply Hold. rewrite concat_app. simpl.
        rewrite app_nil_r, elem_of_app. by right.
      * intros x Hx. apply Hold. rewrite concat_app, elem_of_app. by left.
Qed.
End components.

(** ** Frame lemmas: read operations return the graph they were given *)

Section frame.
Variable g : Graph.
Hypothesis Hclosed : closed (adjacency_list g).

Local Abbreviation adj := (adjacency_list g).

Lemma breadth_first_search_unknown s :
  s ∉ keys adj → breadth_first_search g s = Some ([], g).
Proof.
  intros Hs. unfold breadth_first_search.
  by rewrite (proj2 (contains_false _ _) Hs).
Qed.

Lemma depth_first_search_unknown s :
  s ∉ keys adj → depth_first_search g s = Some ([], g).
Proof.
  intros Hs. unfold depth_first_search.
  by rewrite (proj2 (contains_false _ _) Hs).
Qed.

Lemma dfs_recursive_unknown limit s visited :
  s ∉ keys adj → dfs_recursive limit g s visited = (Returned [], g).
Proof.
  intros Hs. unfold dfs_recursive. cbn [dfs_recursive_call].
  rewrite (proj2 (contains_false _ _) Hs). cbn [negb orb].
  by rewrite graph_eta.
Qed.

Lemma breadth_first_search_frame s : ∃ r, breadth_first_search g s = Some (r, g).
Proof.
  destruct (decide (s ∈ keys adj)) as [Hs|Hs].
  - destruct (breadth_first_search_correct g s Hclosed Hs) as (r & ? & _). eauto.
  - exists []. by apply breadth_first_search_unknown.
Qed.

Lemma depth_first_search_frame s : ∃ r, depth_first_search g s = Some (r, g).
Proof.
  destruct (dfs_recursive_vs_iterative 0 g s Hclosed) as (r & ? & _). eauto.
Qed.

Lemma dfs_recursive_frame limit s visited :
  ∃ r, dfs_recursive limit g s visited = (r, g) ∧
       (length adj ≤ limit → ∃ l, r = Returned l).
Proof.
  unfold dfs_recursive.
  destruct (dfs_recursive_call (S limit) adj s (default ∅ visited))
    as [[r vis'] adj'] eqn:Hrec.
  destruct (dfs_recursive_call_framed _ _ _ _ _ _ _ Hrec) as [-> _].
  exists r. rewrite graph_eta. split; [done|]. intros Hlen.
  destruct (dfs_recursive_call_total adj (S limit) s (default ∅ visited))
    as (sub & vis'' & Hrec' & _).
  { pose proof (unvisited_le_length adj (default ∅ visited)). lia. }
  exists sub. congruence.
Qed.

Lemma find_path_bfs_frame s t : ∃ r, find_path_bfs g s t = Some (r, g).
Proof.
  destruct (decide (s ∈ keys adj)) as [Hs|Hs];
    [destruct (decide (t ∈ keys adj)) as [Ht|Ht]|].
  - destruct (find_path_bfs_correct g s t Hclosed Hs Ht) as (r & ? & _). eauto.
  - exists None. apply find_path_unknown. by right.
  - exists None. apply find_path_unknown. by left.
Qed.

Lemma find_path_dfs_frame s t : ∃ r, find_path_dfs g s t = Some (r, g).
Proof.
  destruct (decide (s ∈ keys adj)) as [Hs|Hs];
    [destruct (decide (t ∈ keys adj)) as [Ht|Ht]|].
  - destruct (find_path_dfs_correct g s t Hclosed Hs Ht) as (r & ? & _). eauto.
  - exists None. apply find_path_unknown. by right.
  - exists None. apply find_path_unknown. by left.
Qed.

Lemma connected_components_bfs_correct :
  ∃ comps, connected_components_bfs g = Some (Returned comps, g) ∧
           NoDup (concat comps) ∧
           ∀ x, x ∈ concat comps ↔ x ∈ keys adj.
Proof.
  unfold connected_components_bfs.
  destruct (components_loop_correct adj Hclosed (keys adj) ∅ [])
    as (out & -> & Hnd & Hall & _ & Hkeys).
  - by apply Forall_forall.
  - apply NoDup_nil_2.
  - intros x. simpl. split; [by intros ?%not_elem_of_empty | by intros ?%elem_of_nil].
  - by intros x ?%elem_of_nil.
  - exists out. cbn [mbind option_bind]. rewrite graph_eta.
    split_and!; [done..|]. intros x. split; auto.
Qed.

Lemma is_connected_unfold :
  match keys adj with
  | [] => is_connected g = Some (true, g)
  | first :: _ =>
      ∃ r, breadth_first_search g first = Some (r, g) ∧
           is_connected g =
           Some (bool_decide (size (list_to_set r : gset vertex)
                              = length (keys adj)), g)
  end.
Proof.
  unfold is_connected. destruct (keys adj) as [|first rest] eqn:Hkeys; [done|].
  destruct (breadth_first_search_frame first) as [r Hr].
  exists r. split; [done|]. rewrite Hr. cbn [mbind option_bind].
  unfold keys in Hkeys. by rewrite <-(length_fmap fst adj), Hkeys.
Qed.
End frame.

(** ** A chain longer than the recursion limit *)

Section deep_recursion.
Implicit Types (n i j frames limit : nat) (vis : gset vertex).






End deep_recursion.

(** * The contracts *)

(** C1: for start and target both keys, [find_path_bfs] returns; a returned
    path leads from start to target along edges and has the fewest edges
    among all such paths, and [None] is returned exactly when there is no
    path from start to target. *)
Theorem find_path_bfs_shortest (g : Graph) (start target : vertex)
    (Hg : graph_inv g)
    (Hstart : start ∈ keys (adjacency_list g))
    (Htarget : target ∈ keys (adjacency_list g)) :
  ∃ r, find_path_bfs g start target = Some (r, g) ∧
       (∀ p, r = Some p →
          path_from_to (adjacency_list g) start target p ∧
          ∀ w, path_from_to (adjacency_list g) start target w →
               edges_of p ≤ edges_of w) ∧
       (r = None ↔ ∀ w, ¬ path_from_to (adjacency_list g) start target w).
Proof.
  destruct Hg as [_ Hclosed].
  destruct (find_path_bfs_correct g start target Hclosed Hstart Htarget)
    as (r & Hrun & Hshort & _).
  exists r. split; [done|]. destruct r as [p|]; simpl in Hshort.
  - destruct Hshort as [Hpath Hmin]. split.
    + intros ? [= <-]. split; [done|]. intros w Hw.
      specialize (Hmin w Hw). unfold edges_of. lia.
    + split; [done|]. intros Hnone. by destruct (Hnone p).
  - split; [done|]. done.
Qed.

Lemma find_path_bfs_shortest_witness :
  ∃ r, find_path_bfs sample_graph "A" "E" = Some (r, sample_graph) ∧
       (∀ p, r = Some p →
          path_from_to (adjacency_list sample_graph) "A" "E" p ∧
          ∀ w, path_from_to (adjacency_list sample_graph) "A" "E" w →
               edges_of p ≤ edges_of w) ∧
       (r = None ↔ ∀ w, ¬ path_from_to (adjacency_list sample_graph) "A" "E" w).
Proof.
  apply (find_path_bfs_shortest sample_graph "A" "E"); by_evaluation.
Defined.







(** C4: [connected_components_bfs] returns a list of components in which no
    vertex is repeated, within or across components; every vertex of the
    graph lies in exactly one of them and nothing else does; on the empty
    graph the list is empty. *)
Theorem connected_components_partition (g : Graph) (Hg : graph_inv g) :
  ∃ comps,
    connected_components_bfs g = Some (Returned comps, g) ∧
    NoDup (concat comps) ∧
    (∀ x, x ∈ concat comps ↔ x ∈ keys (adjacency_list g)) ∧
    (∀ x, x ∈ keys (adjacency_list g) →
       ∃ i c, comps !! i = Some c ∧ x ∈ c ∧
              ∀ j c', comps !! j = Some c' → x ∈ c' → j = i) ∧
    (adjacency_list g = [] → comps = []).
Proof.
  destruct Hg as [_ Hclosed].
  destruct (connected_components_bfs_correct g Hclosed) as (comps & Hrun & Hnd & Hall).
  exists comps. split_and!; [done..| |].
  - intros x Hx. apply Hall in Hx.
    apply list_elem_of_In, in_concat in Hx as (c & Hc & Hxc).
    apply list_elem_of_In, list_elem_of_lookup in Hc as [i Hi].
    apply list_elem_of_In in Hxc.
    exists i, c. split_and!; [done..|].
    intros j c' Hj Hxc'. by eapply concat_unique.
  - intros Hnil. unfold connected_components_bfs in Hrun.
    rewrite Hnil in Hrun. cbn in Hrun. injection Hrun as <- _. done.
Qed.

Lemma connected_components_partition_witness :
  ∃ comps,
    connected_components_bfs islands_graph = Some (Returned comps, islands_graph) ∧
    NoDup (concat comps) ∧
    (∀ x, x ∈ concat comps ↔ x ∈ keys (adjacency_list islands_graph)) ∧
    (∀ x, x ∈ keys (adjacency_list islands_graph) →
       ∃ i c, comps !! i = Some c ∧ x ∈ c ∧
              ∀ j c', comps !! j = Some c' → x ∈ c' → j = i) ∧
    (adjacency_list islands_graph = [] → comps = []).
Proof.
  apply (connected_components_partition islands_graph); by_evaluation.
Defined.

(** C5: on a vertex that is not a key no operation fails: the three
    traversals return the empty list, both path searches return [None]
    whichever endpoint is unknown, and the graph is left as it was. *)
Theorem unknown_vertex_yields_empty (limit : nat) (g : Graph) (v w : vertex)
    (visited : option (gset vertex))
    (Hv : v ∉ keys (adjacency_list g)) :
  breadth_first_search g v = Some ([], g) ∧
  depth_first_search g v = Some ([], g) ∧
  dfs_recursive limit g v visited = (Returned [], g) ∧
  find_path_bfs g v w = Some (None, g) ∧
  find_path_bfs g w v = Some (None, g) ∧
  find_path_dfs g v w = Some (None, g) ∧
  find_path_dfs g w v = Some (None, g) ∧
  get_neighbors g v = ([], g).
Proof.
  split_and!.
  - by apply breadth_first_search_unknown.
  - by apply depth_first_search_unknown.
  - by apply dfs_recursive_unknown.
  - apply find_path_unknown. by left.
  - apply find_path_unknown. by right.
  - apply find_path_unknown. by left.
  - apply find_path_unknown. by right.
  - unfold get_neighbors, nbrs. by rewrite (proj1 (get_None _ _) Hv).
Qed.

Lemma unknown_vertex_yields_empty_witness :
  breadth_first_search sample_graph "Z" = Some ([], sample_graph) ∧
  depth_first_search sample_graph "Z" = Some ([], sample_graph) ∧
  dfs_recursive 998 sample_graph "Z" None = (Returned [], sample_graph) ∧
  find_path_bfs sample_graph "Z" "A" = Some (None, sample_graph) ∧
  find_path_bfs sample_graph "A" "Z" = Some (None, sample_graph) ∧
  find_path_dfs sample_graph "Z" "A" = Some (None, sample_graph) ∧
  find_path_dfs sample_graph "A" "Z" = Some (None, sample_graph) ∧
  get_neighbors sample_graph "Z" = ([], sample_graph).
Proof.
  apply (unknown_vertex_yields_empty 998 sample_graph "Z" "A" None); by_evaluation.
Defined.

(** C6: every operation other than [add_vertex] and [add_edge] returns and
    hands back the graph, mapping and directed flag, exactly as it received
    it, whatever its arguments. *)
Theorem queries_leave_graph_unchanged (limit : nat) (g : Graph) (s t : vertex)
    (visited : option (gset vertex)) (Hg : graph_inv g) :
  (∃ r, breadth_first_search g s = Some (r, g)) ∧
  (∃ r, depth_first_search g s = Some (r, g)) ∧
  (∃ r, dfs_recursive limit g s visited = (r, g) ∧
        (length (adjacency_list g) ≤ limit → ∃ l, r = Returned l)) ∧
  (∃ r, find_path_bfs g s t = Some (r, g)) ∧
  (∃ r, find_path_dfs g s t = Some (r, g)) ∧
  (∃ r, connected_components_bfs g = Some (Returned r, g)) ∧
  (∃ r, is_connected g = Some (r, g)) ∧
  (get_vertices g).2 = g ∧
  (get_neighbors g s).2 = g.
Proof.
  destruct Hg as [_ Hclosed]. split_and!.
  - by apply breadth_first_search_frame.
  - by apply depth_first_search_frame.
  - by apply dfs_recursive_frame.
  - by apply find_path_bfs_frame.
  - by apply find_path_dfs_frame.
  - destruct (connected_components_bfs_correct g Hclosed) as (r & ? & _). eauto.
  - pose proof (is_connected_unfold g Hclosed) as Hic.
    destruct (keys (adjacency_list g)); [eauto|].
    destruct Hic as (r & _ & ?). eauto.
  - done.
  - done.
Qed.

Lemma queries_leave_graph_unchanged_witness :
  (∃ r, breadth_first_search islands_graph "C" = Some (r, islands_graph)) ∧
  (∃ r, depth_first_search islands_graph "C" = Some (r, islands_graph)) ∧
  (∃ r, dfs_recursive 998 islands_graph "C" (Some {["D"]}) = (r, islands_graph) ∧
        (length (adjacency_list islands_graph) ≤ 998 → ∃ l, r = Returned l)) ∧
  (∃ r, find_path_bfs islands_graph "C" "F" = Some (r, islands_graph)) ∧
  (∃ r, find_path_dfs islands_graph "C" "F" = Some (r, islands_graph)) ∧
  (∃ r, connected_components_bfs islands_graph = Some (Returned r, islands_graph)) ∧
  (∃ r, is_connected islands_graph = Some (r, islands_graph)) ∧
  (get_vertices islands_graph).2 = islands_graph ∧
  (get_neighbors islands_graph "C").2 = islands_graph.
Proof.
  apply (queries_leave_graph_unchanged 998 islands_graph "C" "F" (Some {["D"]}));
    by_evaluation.
Defined.

(** C7: the neighbour-closure invariant holds of the empty graph and is
    preserved by [add_vertex] and [add_edge]; [add_edge g u v] appends [v]
    to the list of [u], then, on an undirected graph only, [u] to the list
    of [v], and leaves every other list as it was. *)
Theorem closed_established_and_preserved (g : Graph) (d : bool) (u v w : vertex)
    (Hg : closed (adjacency_list g)) :
  closed (adjacency_list (new_graph d)) ∧
  closed (adjacency_list (add_vertex g w)) ∧
  closed (adjacency_list (add_edge g u v)) ∧
  directed (add_vertex g w) = directed g ∧
  directed (add_edge g u v) = directed g ∧
  nbrs (adjacency_list (add_edge g u v)) w =
    nbrs (adjacency_list g) w
      ++ (if decide (u = w) then [v] else [])
      ++ (if directed g then [] else if decide (v = w) then [u] else []).
Proof.
  split_and!.
  - apply Forall_nil_2.
  - by apply closed_ensure_key.
  - unfold add_edge.
    set (a1 := ensure_key (ensure_key (adjacency_list g) u) v).
    assert (Hu : u ∈ keys a1).
    { apply elem_of_keys_ensure_key. right. apply elem_of_keys_ensure_key. by left. }
    assert (Hv : v ∈ keys a1) by (apply elem_of_keys_ensure_key; by left).
    assert (Hc1 : closed a1) by (by do 2 apply closed_ensure_key).
    destruct (directed g); simpl.
    + by apply closed_append_item.
    + apply closed_append_item; rewrite ?keys_append_item; try done.
      by apply closed_append_item.
  - done.
  - done.
  - apply nbrs_add_edge.
Qed.

Lemma closed_established_and_preserved_witness :
  closed (adjacency_list sample_graph) ∧
  closed (adjacency_list (add_edge sample_graph "E" "F")) ∧
  nbrs (adjacency_list (add_edge sample_graph "E" "F")) "F" = ["E"].
Proof.
  assert (Hg : closed (adjacency_list sample_graph)).
  { apply (bool_decide_unpack _). vm_compute. exact I. }
  destruct (closed_established_and_preserved sample_graph false "E" "F" "F" Hg)
    as (_ & _ & Hc & _ & _ & Hn).
  split_and!; [exact Hg | exact Hc | exact Hn].
Defined.

(** C8: [is_connected] answers [True] on the empty graph; on any other graph
    it answers [True] exactly when the set of vertices that
    [breadth_first_search] visits from the first key has as many elements
    as the graph has vertices. *)
Theorem is_connected_spec (g : Graph) (Hg : graph_inv g) :
  match keys (adjacency_list g) with
  | [] => is_connected g = Some (true, g)
  | first :: _ =>
      ∃ r b, breadth_first_search g first = Some (r, g) ∧
             is_connected g = Some (b, g) ∧
             (b = true ↔
              size (list_to_set r : gset vertex) = length (keys (adjacency_list g)))
  end.
Proof.
  destruct Hg as [_ Hclosed].
  pose proof (is_connected_unfold g Hclosed) as Hic.
  destruct (keys (adjacency_list g)) as [|first rest]; [done|].
  destruct Hic as (r & Hbfs & Hic). eexists r, _. split_and!; [done..|].
  apply bool_decide_eq_true.
Qed.

Lemma is_connected_spec_witness :
  ∃ r b, breadth_first_search islands_graph "A" = Some (r, islands_graph) ∧
         is_connected islands_graph = Some (b, islands_graph) ∧
         (b = true ↔
          size (list_to_set r : gset vertex)
          = length (keys (adjacency_list islands_graph))).
Proof.
  apply (is_connected_spec islands_graph). by_evaluation.
Defined.

(** C9: for a known vertex [v], both path searches from [v] to [v] return
    the one-element path [[v]], self-loop or not. *)
Theorem find_path_self (g : Graph) (v : vertex)
    (Hv : v ∈ keys (adjacency_list g)) :
  find_path_bfs g v v = Some (Some [v], g) ∧
  find_path_dfs g v v = Some (Some [v], g).
Proof.
  unfold find_path_bfs, find_path_dfs.
  rewrite (proj2 (contains_true _ _) Hv). cbn [negb orb].
  by rewrite !decide_True.
Qed.

Lemma find_path_self_witness :
  find_path_bfs sample_graph "D" "D" = Some (Some ["D"], sample_graph) ∧
  find_path_dfs sample_graph "D" "D" = Some (Some ["D"], sample_graph).
Proof.
  apply (find_path_self sample_graph "D"). by_evaluation.
Defined.

(** C10: both path searches return, on any pair of vertices; a returned
    path starts at start, ends at target, steps only along recorded edges
    and visits no vertex twice. *)
Theorem found_paths_are_simple (g : Graph) (start target : vertex)
    (Hg : graph_inv g) :
  ∃ rb rd,
    find_path_bfs g start target = Some (rb, g) ∧
    find_path_dfs g start target = Some (rd, g) ∧
    ∀ p, rb = Some p ∨ rd = Some p →
      head p = Some start ∧ last p = Some target ∧
      (∀ i u v, p !! i = Some u → p !! S i = Some v →
                v ∈ nbrs (adjacency_list g) u) ∧
      NoDup p.
Proof.
  destruct Hg as [_ Hclosed].
  destruct (decide (start ∈ keys (adjacency_list g))) as [Hs|Hs];
    [destruct (decide (target ∈ keys (adjacency_list g))) as [Ht|Ht]|].
  - destruct (find_path_bfs_correct g start target Hclosed Hs Ht)
      as (rb & Hb & _ & Hsb).
    destruct (find_path_dfs_correct g start target Hclosed Hs Ht)
      as (rd & Hd & Hsd).
    exists rb, rd. split_and!; [done..|].
    intros p [Hp|Hp]; [apply Hsb in Hp | apply Hsd in Hp];
      destruct Hp as [(? & ? & ?) ?]; done.
  - destruct (find_path_unknown g start target) as [Hb Hd]; [by right|].
    exists None, None. split_and!; [done..|]. by intros p [?|?].
  - destruct (find_path_unknown g start target) as [Hb Hd]; [by left|].
    exists None, None. split_and!; [done..|]. by intros p [?|?].
Qed.

Lemma found_paths_are_simple_witness :
  ∃ rb rd,
    find_path_bfs sample_graph "B" "C" = Some (rb, sample_graph) ∧
    find_path_dfs sample_graph "B" "C" = Some (rd, sample_graph) ∧
    ∀ p, rb = Some p ∨ rd = Some p →
      head p = Some "B" ∧ last p = Some "C" ∧
      (∀ i u v, p !! i = Some u → p !! S i = Some v →
                v ∈ nbrs (adjacency_list sample_graph) u) ∧
      NoDup p.
Proof.
  apply (found_paths_are_simple sample_graph "B" "C"). by_evaluation.
Defined.


(** * Further properties of the code *)

(** ** Mutation *)

Section mutation.
Implicit Types (adj : adjacency) (g : Graph) (u v w k x : vertex).

Lemma ensure_key_present adj k : k ∈ keys adj → ensure_key adj k = adj.
Proof.
  intros Hk. unfold ensure_key. by rewrite (proj2 (contains_true _ _) Hk).
Qed.

Lemma contains_ensure_key adj k k' :
  contains (ensure_key adj k) k' = contains adj k' || bool_decide (k' = k).
Proof.
  apply eq_true_iff_eq.
  rewrite orb_true_iff, !contains_true, bool_decide_eq_true, elem_of_keys_ensure_key.
  tauto.
Qed.

Lemma edge_count_snoc_empty adj k : edge_count (adj ++ [(k, [])]) = edge_count adj.
Proof. unfold edge_count. rewrite sum_list_with_app. simpl. lia. Qed.

Lemma edge_count_ensure_key adj k : edge_count (ensure_key adj k) = edge_count adj.
Proof.
  unfold ensure_key. destruct (contains adj k); [done|].
  apply edge_count_snoc_empty.
Qed.

Lemma edge_count_append_item adj k x :
  edge_count (append_item adj k x) = S (edge_count adj).
Proof.
  unfold edge_count. induction adj as [|[k' ns] adj IH]; simpl; [done|].
  case_decide; simpl.
  - rewrite length_app. simpl. lia.
  - rewrite IH. lia.
Qed.

Lemma keys_add_edge g u v :
  keys (adjacency_list (add_edge g u v)) =
  keys (adjacency_list g)
    ++ (if contains (adjacency_list g) u then [] else [u])
    ++ (if contains (adjacency_list g) v || bool_decide (v = u) then [] else [v]).
Proof.
  unfold add_edge.
  set (a1 := ensure_key (ensure_key (adjacency_list g) u) v).
  assert (Hu : u ∈ keys a1).
  { apply elem_of_keys_ensure_key. right. apply elem_of_keys_ensure_key. by left. }
  assert (Hv : v ∈ keys a1) by (apply elem_of_keys_ensure_key; by left).
  assert (Hk : keys a1 =
    keys (adjacency_list g)
      ++ (if contains (adjacency_list g) u then [] else [u])
      ++ (if contains (adjacency_list g) v || bool_decide (v = u) then [] else [v])).
  { unfold a1. rewrite keys_ensure_key, contains_ensure_key, keys_ensure_key.
    destruct (contains (adjacency_list g) u), (_ || _);
      by rewrite ?app_nil_r, <-?app_assoc. }
  destruct (directed g); simpl.
  - by rewrite keys_append_item.
  - rewrite !keys_append_item; [done..|]. by rewrite keys_append_item.
Qed.

Lemma symmetric_add_vertex g v :
  symmetric (adjacency_list g) → symmetric (adjacency_list (add_vertex g v)).
Proof.
  intros Hsym a b. unfold edge. simpl. rewrite !nbrs_ensure_key. apply Hsym.
Qed.

Lemma symmetric_add_edge g u v :
  directed g = false →
  symmetric (adjacency_list g) → symmetric (adjacency_list (add_edge g u v)).
Proof.
  intros Hd Hsym a b. unfold edge. rewrite !nbrs_add_edge, Hd.
  rewrite !elem_of_app. intros [Hab|[Hab|Hab]].
  - left. by apply Hsym.
  - case_decide; [|by apply elem_of_nil in Hab].
    apply list_elem_of_singleton in Hab. subst.
    right. right. rewrite decide_True by done. by apply list_elem_of_singleton.
  - case_decide; [|by apply elem_of_nil in Hab].
    apply list_elem_of_singleton in Hab. subst.
    right. left. rewrite decide_True by done. by apply list_elem_of_singleton.
Qed.

Lemma built_directed_symmetric g :
  built g → directed g = false → symmetric (adjacency_list g).
Proof.
  induction 1 as [d|g v _ IH|g u v _ IH]; intros Hd.
  - intros a b Hab. unfold edge, nbrs in Hab. by apply elem_of_nil in Hab.
  - by apply symmetric_add_vertex, IH.
  - apply symmetric_add_edge; [done|]. by apply IH.
Qed.
End mutation.

(** X1: [add_vertex] on a vertex that is already present changes nothing:
    the graph after the call is the graph before it. *)
Theorem add_vertex_present_noop (g : Graph) (v : vertex)
    (Hv : v ∈ keys (adjacency_list g)) :
  add_vertex g v = g.
Proof.
  unfold add_vertex. rewrite ensure_key_present by done. apply graph_eta.
Qed.

Lemma add_vertex_present_noop_witness : add_vertex sample_graph "C" = sample_graph.
Proof. apply (add_vertex_present_noop sample_graph "C"). by_evaluation. Defined.

(** X2: [add_vertex] is idempotent, makes its argument a vertex, and leaves
    every neighbour list, also that of the added vertex, as it was: a new
    vertex starts without neighbours. *)
Theorem add_vertex_idempotent (g : Graph) (v w : vertex) :
  add_vertex (add_vertex g v) v = add_vertex g v ∧
  v ∈ keys (adjacency_list (add_vertex g v)) ∧
  nbrs (adjacency_list (add_vertex g v)) w = nbrs (adjacency_list g) w.
Proof.
  assert (Hv : v ∈ keys (adjacency_list (add_vertex g v))).
  { apply elem_of_keys_ensure_key. by left. }
  split_and!; [|done|apply nbrs_ensure_key].
  unfold add_vertex at 1. rewrite ensure_key_present by done. apply graph_eta.
Qed.

(** X3: [add_edge] never removes or reorders a vertex: the vertex list
    after the call is the one before it, followed by the start vertex if it
    was unknown, followed by the end vertex if it was unknown and differs
    from the start. *)
Theorem add_edge_vertices (g : Graph) (u v : vertex) :
  (get_vertices (add_edge g u v)).1 =
  (get_vertices g).1
    ++ (if contains (adjacency_list g) u then [] else [u])
    ++ (if contains (adjacency_list g) v || bool_decide (v = u) then [] else [v]).
Proof. apply keys_add_edge. Qed.

(** X4: [add_edge] never deduplicates: each call adds exactly one entry to
    the neighbour lists of a directed graph and exactly two to those of an
    undirected graph, whether or not the edge was there before. *)
Theorem add_edge_counts (g : Graph) (u v : vertex) :
  edge_count (adjacency_list (add_edge g u v)) =
  edge_count (adjacency_list g) + (if directed g then 1 else 2).
Proof.
  unfold add_edge. destruct (directed g); simpl.
  - rewrite edge_count_append_item, !edge_count_ensure_key. lia.
  - rewrite !edge_count_append_item, !edge_count_ensure_key. lia.
Qed.

(** X5: in an undirected graph built with [add_vertex] and [add_edge] the
    neighbour relation is symmetric: [v] is listed for [u] exactly when [u]
    is listed for [v]. *)
Theorem undirected_neighbors_symmetric (g : Graph) (u v : vertex)
    (Hbuilt : built g) (Hundirected : directed g = false) :
  v ∈ (get_neighbors g u).1 ↔ u ∈ (get_neighbors g v).1.
Proof.
  pose proof (built_directed_symmetric g Hbuilt Hundirected) as Hsym.
  split; apply Hsym.
Qed.

Lemma undirected_neighbors_symmetric_witness :
  "E" ∈ (get_neighbors sample_graph "C").1 ↔ "C" ∈ (get_neighbors sample_graph "E").1.
Proof.
  apply (undirected_neighbors_symmetric sample_graph "C" "E"); [|reflexivity].
  unfold sample_graph. simpl. repeat apply built_add_edge. apply built_new.
Defined.

(** ** Traversals *)

Section traversal_shape.
Variable g : Graph.
Variable s : vertex.
Hypothesis Hclosed : closed (adjacency_list g).
Hypothesis Hs : s ∈ keys (adjacency_list g).

Local Abbreviation adj := (adjacency_list g).

Lemma reachable_key x : reachable adj s x → x ∈ keys adj.
Proof.
  intros Hreach. revert Hs. induction Hreach as [|a b c Hab _ IH]; [done|].
  intros Ha. apply IH. by eapply closed_nbrs.
Qed.

Lemma breadth_first_search_head r g' :
  breadth_first_search g s = Some (r, g') → head r = Some s.
Proof.
  unfold breadth_first_search.
  rewrite (proj2 (contains_true _ _) Hs). cbn [negb].
  destruct (bfs_loop _ _ _ _ _) as [[[out vis'] adj']|] eqn:Hrun; [|done].
  cbn [mbind option_bind]. intros [= <- _].
  assert (adj' = adj ∧ ((vis' = ∅ ∧ [] = [s] ∧ out = []) ∨ head out = Some s))
    as [_ [(_ & [=] & _)|?]]; [|done].
  eapply (bfs_loop_rule adj Hclosed
            (λ vis q res, (vis = ∅ ∧ q = [s] ∧ res = []) ∨ head res = Some s));
    [..|exact Hrun].
  - intros vis c q res _ Hc [(-> & _ & _)|?]; [|by right].
    by apply not_elem_of_empty in Hc.
  - intros vis c q res _ _ [(_ & [= -> ->] & ->)|Hhead]; right; [done|].
    by apply head_app_nonempty.
  - by apply Forall_singleton.
  - by left.
Qed.

Lemma depth_first_search_head r g' :
  depth_first_search g s = Some (r, g') → head r = Some s.
Proof.
  unfold depth_first_search.
  rewrite (proj2 (contains_true _ _) Hs). cbn [negb].
  destruct (dfs_loop _ _ _ _ _) as [[[out vis'] adj']|] eqn:Hrun; [|done].
  cbn [mbind option_bind]. intros [= <- _].
  assert (adj' = adj ∧ ((vis' = ∅ ∧ [] = [s] ∧ out = []) ∨ head out = Some s))
    as [_ [(_ & [=] & _)|?]]; [|done].
  eapply (dfs_loop_rule adj Hclosed
            (λ vis st res, (vis = ∅ ∧ st = [s] ∧ res = []) ∨ head res = Some s));
    [..|exact Hrun].
  - intros vis c st res _ Hc [(-> & _ & _)|?]; [|by right].
    by apply not_elem_of_empty in Hc.
  - intros vis c st res _ _ [(_ & [= -> ->] & ->)|Hhead]; right; [done|].
    by apply head_app_nonempty.
  - by apply Forall_singleton.
  - by left.
Qed.
End traversal_shape.

(** X6: from a known vertex the breadth-first and the iterative
    depth-first traversal return a list that begins with the start vertex,
    names no vertex twice and names only vertices of the graph;
    [dfs_recursive] returns such a list or raises [RecursionError], and it
    returns whenever the graph has no more vertices than the recursion
    limit leaves nested activations. *)
Theorem traversals_begin_with_start (limit : nat) (g : Graph) (v : vertex)
    (Hg : graph_inv g) (Hv : v ∈ keys (adjacency_list g)) :
  ∃ rb rd out,
    breadth_first_search g v = Some (rb, g) ∧
    depth_first_search g v = Some (rd, g) ∧
    dfs_recursive limit g v None = (out, g) ∧
    head rb = Some v ∧ head rd = Some v ∧
    NoDup rb ∧ NoDup rd ∧
    (∀ x, x ∈ rb ∨ x ∈ rd → x ∈ (get_vertices g).1) ∧
    (out = RecursionError ∨
     ∃ rr, out = Returned rr ∧ head rr = Some v ∧ NoDup rr ∧
           ∀ x, x ∈ rr → x ∈ (get_vertices g).1) ∧
    (length (adjacency_list g) ≤ limit → out ≠ RecursionError).
Proof.
  destruct Hg as [_ Hclosed].
  destruct (breadth_first_search_correct g v Hclosed Hv) as (rb & Hb & Hndb & Hrb).
  destruct (depth_first_search_correct g v Hclosed Hv) as (rd & Hd & Hndd & Hrd).
  destruct (dfs_recursive_vs_iterative limit g v Hclosed)
    as (rr & Hd' & Hor & Hlim).
  assert (rr = rd) as -> by congruence.
  pose proof (breadth_first_search_head g v Hclosed Hv _ _ Hb).
  pose proof (depth_first_search_head g v Hclosed Hv _ _ Hd).
  assert (Hkeys : ∀ x, x ∈ rb ∨ x ∈ rd → x ∈ (get_vertices g).1).
  { intros x [?%Hrb|?%Hrd]; by eapply reachable_key. }
  destruct Hor as [Hret|Hraise].
  - exists rb, rd, (Returned rd). split_and!; try done.
    right. exists rd. split_and!; try done. intros x Hx. apply Hkeys. by right.
  - exists rb, rd, RecursionError. split_and!; try done; [by left|].
    intros Hle. specialize (Hlim Hle). congruence.
Qed.

Lemma traversals_begin_with_start_witness :
  ∃ rb rd out,
    breadth_first_search sample_graph "D" = Some (rb, sample_graph) ∧
    depth_first_search sample_graph "D" = Some (rd, sample_graph) ∧
    dfs_recursive 998 sample_graph "D" None = (out, sample_graph) ∧
    head rb = Some "D" ∧ head rd = Some "D" ∧
    NoDup rb ∧ NoDup rd ∧
    (∀ x, x ∈ rb ∨ x ∈ rd → x ∈ (get_vertices sample_graph).1) ∧
    (out = RecursionError ∨
     ∃ rr, out = Returned rr ∧ head rr = Some "D" ∧ NoDup rr ∧
           ∀ x, x ∈ rr → x ∈ (get_vertices sample_graph).1) ∧
    (length (adjacency_list sample_graph) ≤ 998 → out ≠ RecursionError).
Proof.
  apply (traversals_begin_with_start 998 sample_graph "D"); by_evaluation.
Defined.

(** ** Path searches *)

Section paths_and_reachability.
Variable adj : adjacency.
Implicit Types (p w : path) (s t x y : vertex).

Lemma walk_cons_inv x p :
  walk adj (x :: p) → walk adj p ∧ ∀ y, head p = Some y → edge adj x y.
Proof.
  intros Hw. split.
  - intros i u v Hu Hv. by apply (Hw (S i)).
  - intros y Hy. apply (Hw 0); [done|]. by destruct p; simplify_eq.
Qed.

Lemma walk_cons x y p : edge adj x y → walk adj (y :: p) → walk adj (x :: y :: p).
Proof.
  intros Hxy Hw [|i] u v Hu Hv; simpl in *; simplify_eq; [done|].
  by apply (Hw i).
Qed.

Lemma path_reachable s t p : path_from_to adj s t p → reachable adj s t.
Proof.
  revert s. induction p as [|x p IH]; intros s (Hhead & Hlast & Hwalk); [done|].
  simpl in Hhead. simplify_eq.
  destruct p as [|y p].
  - simpl in Hlast. simplify_eq. apply rtc_refl.
  - apply walk_cons_inv in Hwalk as [Hwalk Hedge].
    eapply rtc_l; [by apply Hedge|]. apply IH. split_and!; done.
Qed.

Lemma reachable_path s t : reachable adj s t → ∃ p, path_from_to adj s t p.
Proof.
  induction 1 as [x|x y z Hxy _ (p & Hhead & Hlast & Hwalk)].
  - exists [x]. split_and!; [done | done | apply walk_singleton].
  - destruct p as [|y' p]; [done|]. simpl in Hhead. simplify_eq.
    exists (x :: y :: p). split_and!; [done | done | by apply walk_cons].
Qed.

Lemma path_reverse s t p :
  symmetric adj → path_from_to adj s t p → path_from_to adj t s (reverse p).
Proof.
  intros Hsym (Hhead & Hlast & Hwalk). split_and!.
  - by rewrite head_reverse.
  - by rewrite last_reverse.
  - clear Hhead Hlast. induction p as [|x p IH]; [done|].
    apply walk_cons_inv in Hwalk as [Hwalk Hedge].
    rewrite reverse_cons. destruct p as [|y p].
    + apply walk_singleton.
    + apply (walk_snoc _ _ y); [by apply IH | by rewrite last_reverse |].
      by apply Hsym, Hedge.
Qed.

Lemma scan_bfs_found (visited : gset vertex) target p queue ns :
  target ∈ ns → scan_bfs visited target p queue ns = inl (p ++ [target]).
Proof.
  revert queue. induction ns as [|n ns IH]; intros queue Hin; simpl.
  - by apply elem_of_nil in Hin.
  - case_decide; subst; [done|].
    apply IH. apply elem_of_cons in Hin as [?|?]; [congruence|done].
Qed.

Lemma scan_dfs_found (visited : gset vertex) target p stack ns :
  target ∈ ns → scan_dfs visited target p stack ns = inl (p ++ [target]).
Proof.
  revert stack. induction ns as [|n ns IH]; intros stack Hin; simpl.
  - by apply elem_of_nil in Hin.
  - case_decide; subst; [done|].
    apply IH. apply elem_of_cons in Hin as [?|?]; [congruence|done].
Qed.
End paths_and_reachability.

Section dfs_complete.
Variable adj : adjacency.
Variables s target : vertex.
Hypothesis Hne : s ≠ target.

Lemma dfs_complete_inv_init : dfs_complete_inv adj s target ∅ [(s, [s])].
Proof.
  split_and!.
  - by intros y ?%not_elem_of_empty.
  - right. simpl. left.
  - by intros y n ?%not_elem_of_empty.
Qed.

Lemma dfs_complete_inv_skip vis c p stack :
  c ∈ vis →
  dfs_complete_inv adj s target vis ((c, p) :: stack) →
  dfs_complete_inv adj s target vis stack.
Proof.
  intros Hc (Hnt & Hs & Hcl). split_and!; [done| |].
  - destruct Hs as [?|[->|?]%elem_of_cons]; auto.
  - intros y n Hy Hn Hnt'.
    destruct (Hcl y n Hy Hn Hnt') as [?|[->|?]%elem_of_cons]; auto.
Qed.

Lemma dfs_complete_inv_expand vis c p stack :
  target ∉ nbrs adj c →
  dfs_complete_inv adj s target vis ((c, p) :: stack) →
  dfs_complete_inv adj s target ({[c]} ∪ vis)
    (reverse (extend p <$> filter (λ n, n ∉ {[c]} ∪ vis) (nbrs adj c)) ++ stack).
Proof.
  intros Ht (Hnt & Hs & Hcl).
  assert (Hold : ∀ x, x ∈ vis ∨ x ∈ ((c, p) :: stack).*1 →
    x ∈ {[c]} ∪ vis ∨
    x ∈ (reverse (extend p <$> filter (λ n, n ∉ {[c]} ∪ vis) (nbrs adj c))
         ++ stack).*1).
  { intros x [?|[->|?]%elem_of_cons].
    - left. apply elem_of_union. by right.
    - left. apply elem_of_union. left. by apply elem_of_singleton.
    - right. rewrite fmap_app. apply elem_of_app. by right. }
  split_and!.
  - intros y [->%elem_of_singleton|?]%elem_of_union; auto.
  - by apply Hold.
  - intros y n [->%elem_of_singleton|Hy]%elem_of_union Hn Hnt'.
    + destruct (decide (n ∈ {[c]} ∪ vis)) as [?|Hnv]; [by left|]. right.
      rewrite fmap_app. apply elem_of_app. left.
      apply list_elem_of_fmap. exists (extend p n). split; [done|].
      apply elem_of_reverse, list_elem_of_fmap. exists n. split; [done|].
      by apply list_elem_of_filter.
    + apply Hold. by apply (Hcl y).
Qed.

Lemma dfs_complete_inv_empty vis :
  dfs_complete_inv adj s target vis [] → complete adj s target None.
Proof.
  intros (Hnt & Hs & Hcl) _ w (u & y & Hu & Hy & _)%first_arrival; [|done].
  assert (Hsv : s ∈ vis) by (destruct Hs as [?|?%elem_of_nil]; done).
  assert (Hall : ∀ u y, tfree_walk adj s target u y → y ∈ vis).
  { clear u y Hu Hy. intros u.
    induction u as [|x u IH] using rev_ind; intros y Hw.
    { by destruct Hw as [[=] _]. }
    assert (x = y) as ->.
    { destruct Hw as (_ & Hlast & _). rewrite last_snoc in Hlast. congruence. }
    destruct u as [|z u _] using rev_ind.
    { destruct Hw as ([= ->] & _). done. }
    assert (Hyt : y ≠ target).
    { intros ->. destruct Hw as (_ & _ & _ & Hfree). apply Hfree.
      apply elem_of_app. right. by apply list_elem_of_singleton. }
    rewrite <-app_assoc in Hw. simpl in Hw.
    apply tfree_walk_snoc_inv in Hw as [Hwz Hedge].
    destruct (Hcl z y (IH z Hwz) Hedge Hyt) as [?|?%elem_of_nil]; done. }
  by apply (Hnt y (Hall u y Hu)).
Qed.
End dfs_complete.

Lemma find_path_dfs_complete (g : Graph) (s target : vertex) :
  closed (adjacency_list g) →
  s ∈ keys (adjacency_list g) → target ∈ keys (adjacency_list g) →
  ∀ r g', find_path_dfs g s target = Some (r, g') →
          complete (adjacency_list g) s target r.
Proof.
  intros Hclosed Hs Ht r g'. unfold find_path_dfs.
  rewrite (proj2 (contains_true _ _) Hs), (proj2 (contains_true _ _) Ht).
  cbn [negb orb].
  destruct (decide (s = target)) as [<-|Hne]; [by intros [= <- _]|].
  destruct (find_path_dfs_loop _ _ _ _ _) as [[r' adj']|] eqn:Hrun; [|done].
  cbn [mbind option_bind]. intros [= <- _].
  assert (adj' = adjacency_list g ∧ complete (adjacency_list g) s target r')
    as [_ ?]; [|done].
  eapply (find_path_dfs_loop_rule _ Hclosed target
            (dfs_complete_inv (adjacency_list g) s target)); [..|exact Hrun].
  - intros vis c p st _. by apply dfs_complete_inv_skip.
  - intros vis c p st _ _. by apply dfs_complete_inv_expand.
  - by intros.
  - intros vis. by apply dfs_complete_inv_empty.
  - by apply Forall_singleton.
  - apply dfs_complete_inv_init.
Qed.

(** X7: for known endpoints the depth-first path search answers [None]
    exactly when the graph has no path from start to target: whenever a
    path exists, it finds one. *)
Theorem find_path_dfs_finds_a_path (g : Graph) (start target : vertex)
    (Hg : graph_inv g)
    (Hstart : start ∈ keys (adjacency_list g))
    (Htarget : target ∈ keys (adjacency_list g)) :
  ∃ r, find_path_dfs g start target = Some (r, g) ∧
       (r = None ↔ ∀ w, ¬ path_from_to (adjacency_list g) start target w).
Proof.
  destruct Hg as [_ Hclosed].
  destruct (find_path_dfs_correct g start target Hclosed Hstart Htarget)
    as (r & Hrun & Hsimple).
  exists r. split; [done|]. split.
  - by eapply find_path_dfs_complete.
  - intros Hnone. destruct r as [p|]; [|done].
    destruct (Hsimple p eq_refl) as [Hpath _]. by destruct (Hnone p).
Qed.

Lemma find_path_dfs_finds_a_path_witness :
  ∃ r, find_path_dfs chain_graph "C" "A" = Some (r, chain_graph) ∧
       (r = None ↔ ∀ w, ¬ path_from_to (adjacency_list chain_graph) "C" "A" w).
Proof.
  apply (find_path_dfs_finds_a_path chain_graph "C" "A"); by_evaluation.
Defined.

(** X8: on any pair of vertices the two path searches agree on whether
    there is a path, and the path of the breadth-first search never has more
    edges than the path of the depth-first search. *)
Theorem find_path_bfs_not_longer_than_dfs (g : Graph) (start target : vertex)
    (Hg : graph_inv g) :
  ∃ rb rd,
    find_path_bfs g start target = Some (rb, g) ∧
    find_path_dfs g start target = Some (rd, g) ∧
    (rb = None ↔ rd = None) ∧
    ∀ pb pd, rb = Some pb → rd = Some pd → edges_of pb ≤ edges_of pd.
Proof.
  destruct Hg as [_ Hclosed].
  destruct (decide (start ∈ keys (adjacency_list g))) as [Hs|Hs];
    [destruct (decide (target ∈ keys (adjacency_list g))) as [Ht|Ht]|].
  - destruct (find_path_bfs_correct g start target Hclosed Hs Ht)
      as (rb & Hb & Hshort & _).
    destruct (find_path_dfs_correct g start target Hclosed Hs Ht)
      as (rd & Hd & Hsimple).
    pose proof (find_path_dfs_complete g start target Hclosed Hs Ht _ _ Hd) as Hcomp.
    exists rb, rd. split_and!; [done..| |].
    + destruct rb as [pb|], rd as [pd|]; simpl in Hshort; try done.
      * destruct Hshort as [Hpath _]. by destruct (Hcomp eq_refl pb).
      * destruct (Hsimple pd eq_refl) as [Hpath _]. by destruct (Hshort pd).
    + intros pb pd -> ->. simpl in Hshort. destruct Hshort as [_ Hmin].
      destruct (Hsimple pd eq_refl) as [Hpath _].
      specialize (Hmin pd Hpath). unfold edges_of. lia.
  - destruct (find_path_unknown g start target) as [Hb Hd]; [by right|].
    exists None, None. split_and!; done.
  - destruct (find_path_unknown g start target) as [Hb Hd]; [by left|].
    exists None, None. split_and!; done.
Qed.

Lemma find_path_bfs_not_longer_than_dfs_witness :
  ∃ rb rd,
    find_path_bfs sample_graph "B" "C" = Some (rb, sample_graph) ∧
    find_path_dfs sample_graph "B" "C" = Some (rd, sample_graph) ∧
    (rb = None ↔ rd = None) ∧
    ∀ pb pd, rb = Some pb → rd = Some pd → edges_of pb ≤ edges_of pd.
Proof.
  apply (find_path_bfs_not_longer_than_dfs sample_graph "B" "C"). by_evaluation.
Defined.

(** X9: for known endpoints [find_path_bfs] returns a path exactly when the
    target occurs in the breadth-first traversal from the start. *)
Theorem path_found_iff_traversed (g : Graph) (start target : vertex)
    (Hg : graph_inv g)
    (Hstart : start ∈ keys (adjacency_list g))
    (Htarget : target ∈ keys (adjacency_list g)) :
  ∃ r visited,
    find_path_bfs g start target = Some (r, g) ∧
    breadth_first_search g start = Some (visited, g) ∧
    (is_Some r ↔ target ∈ visited).
Proof.
  destruct Hg as [_ Hclosed].
  destruct (find_path_bfs_correct g start target Hclosed Hstart Htarget)
    as (r & Hrun & Hshort & _).
  destruct (breadth_first_search_correct g start Hclosed Hstart)
    as (visited & Hbfs & _ & Hreach).
  exists r, visited. split_and!; [done..|].
  rewrite Hreach. destruct r as [p|]; simpl in Hshort.
  - destruct Hshort as [Hpath _]. split; [|by eexists].
    intros _. by eapply path_reachable.
  - split; [by intros [? ?]|].
    intros [w Hw]%reachable_path. by destruct (Hshort w).
Qed.

Lemma path_found_iff_traversed_witness :
  ∃ r visited,
    find_path_bfs chain_graph "B" "A" = Some (r, chain_graph) ∧
    breadth_first_search chain_graph "B" = Some (visited, chain_graph) ∧
    (is_Some r ↔ "A" ∈ visited).
Proof.
  apply (path_found_iff_traversed chain_graph "B" "A"); by_evaluation.
Defined.

Lemma find_path_direct (g : Graph) (start target : vertex) :
  start ≠ target →
  target ∈ keys (adjacency_list g) →
  target ∈ nbrs (adjacency_list g) start →
  find_path_bfs g start target = Some (Some [start; target], g) ∧
  find_path_dfs g start target = Some (Some [start; target], g).
Proof.
  intros Hne Htarget Hedge.
  assert (Hstart : start ∈ keys (adjacency_list g)).
  { apply get_is_Some. unfold nbrs in Hedge.
    destruct (get (adjacency_list g) start); [by eexists|].
    by apply elem_of_nil in Hedge. }
  unfold find_path_bfs, find_path_dfs.
  rewrite (proj2 (contains_true _ _) Hstart), (proj2 (contains_true _ _) Htarget).
  cbn [negb orb]. rewrite !decide_False by done.
  unfold loop_fuel. cbn [find_path_bfs_loop find_path_dfs_loop].
  rewrite bool_decide_false by apply not_elem_of_empty.
  rewrite (getitem_key _ _ Hstart).
  rewrite (scan_bfs_found _ _ _ _ _ Hedge), (scan_dfs_found _ _ _ _ _ Hedge).
  cbn [mbind option_bind app]. by rewrite graph_eta.
Qed.

(** X10: when the target is a known vertex listed among the neighbours of
    a different start vertex, both path searches return the two-vertex path
    along that edge, on any mapping. *)
Theorem find_path_direct_edge (g : Graph) (start target : vertex)
    (Hne : start ≠ target)
    (Htarget : target ∈ keys (adjacency_list g))
    (Hedge : target ∈ (get_neighbors g start).1) :
  find_path_bfs g start target = Some (Some [start; target], g) ∧
  find_path_dfs g start target = Some (Some [start; target], g).
Proof. by apply find_path_direct. Qed.

Lemma find_path_direct_edge_witness :
  find_path_bfs chain_graph "A" "B" = Some (Some ["A"; "B"], chain_graph) ∧
  find_path_dfs chain_graph "A" "B" = Some (Some ["A"; "B"], chain_graph).
Proof.
  apply (find_path_direct_edge chain_graph "A" "B"); by_evaluation.
Defined.

(** X11: in an undirected graph built with [add_vertex] and [add_edge],
    [find_path_bfs] finds a path from [a] to [b] exactly when it finds one
    from [b] to [a], and the two paths have the same number of edges. *)
Theorem undirected_shortest_path_symmetric (g : Graph) (a b : vertex)
    (Hbuilt : built g) (Hundirected : directed g = false)
    (Ha : a ∈ keys (adjacency_list g)) (Hb : b ∈ keys (adjacency_list g)) :
  ∃ rab rba,
    find_path_bfs g a b = Some (rab, g) ∧
    find_path_bfs g b a = Some (rba, g) ∧
    (rab = None ↔ rba = None) ∧
    ∀ p q, rab = Some p → rba = Some q → edges_of p = edges_of q.
Proof.
  pose proof (built_directed_symmetric g Hbuilt Hundirected) as Hsym.
  destruct (built_inv g Hbuilt) as [_ Hclosed].
  destruct (find_path_bfs_correct g a b Hclosed Ha Hb) as (rab & Hab & Hsab & _).
  destruct (find_path_bfs_correct g b a Hclosed Hb Ha) as (rba & Hba & Hsba & _).
  exists rab, rba. split_and!; [done..| |].
  - destruct rab as [p|], rba as [q|]; simpl in *; try done.
    + destruct Hsab as [Hp _]. by destruct (Hsba _ (path_reverse _ _ _ _ Hsym Hp)).
    + destruct Hsba as [Hq _]. by destruct (Hsab _ (path_reverse _ _ _ _ Hsym Hq)).
  - intros p q -> ->. simpl in *.
    destruct Hsab as [Hp Hminp], Hsba as [Hq Hminq].
    specialize (Hminp _ (path_reverse _ _ _ _ Hsym Hq)).
    specialize (Hminq _ (path_reverse _ _ _ _ Hsym Hp)).
    rewrite length_reverse in *. unfold edges_of. lia.
Qed.

Lemma undirected_shortest_path_symmetric_witness :
  ∃ rab rba,
    find_path_bfs sample_graph "A" "E" = Some (rab, sample_graph) ∧
    find_path_bfs sample_graph "E" "A" = Some (rba, sample_graph) ∧
    (rab = None ↔ rba = None) ∧
    ∀ p q, rab = Some p → rba = Some q → edges_of p = edges_of q.
Proof.
  apply (undirected_shortest_path_symmetric sample_graph "A" "E");
    [|reflexivity|by_evaluation|by_evaluation].
  unfold sample_graph. simpl. repeat apply built_add_edge. apply built_new.
Defined.


(** ** Traversals that start from a non-empty visited set *)

Section scan.
Variable adj : adjacency.
Variable blocked : gset vertex.
Variable s : vertex.
Hypothesis Hs : s ∉ blocked.

Lemma scan_inv_init : scan_inv adj blocked s blocked [s] [].
Proof.
  split_and!.
  - apply NoDup_nil_2.
  - intros x. split; [by left|]. by intros [?|?%elem_of_nil].
  - by intros x ?%elem_of_nil.
  - intros x [?%elem_of_nil| ->%list_elem_of_singleton]; [done|]. apply rtc_refl.
  - by intros x y ?%elem_of_nil.
  - by left.
Qed.

Lemma scan_inv_skip vis c work res :
  c ∈ vis → scan_inv adj blocked s vis (c :: work) res →
  scan_inv adj blocked s vis work res.
Proof.
  intros Hc (Hnd & Hvis & Hres & Hreach & Hcl & Hhead). split_and!; try done.
  - intros x [?|?]; apply Hreach; [by left | right; by right].
  - intros x y Hx Hxy.
    destruct (Hcl x y Hx Hxy) as [?|[->|?]%elem_of_cons]; auto.
  - destruct Hhead as [[-> [= -> ->]]|?]; [|by right].
    apply Hvis in Hc as [?|?%elem_of_nil]; done.
Qed.

Lemma scan_inv_expand vis c work res work' :
  (∀ y, y ∈ work' ↔ y ∈ work ∨ (y ∈ nbrs adj c ∧ y ∉ {[c]} ∪ vis)) →
  c ∉ vis →
  scan_inv adj blocked s vis (c :: work) res →
  scan_inv adj blocked s ({[c]} ∪ vis) work' (res ++ [c]).
Proof.
  intros Hw' Hc (Hnd & Hvis & Hres & Hreach & Hcl & Hhead).
  assert (Hrc : reachable_avoiding adj blocked s c) by (apply Hreach; right; left).
  assert (Hcb : c ∉ blocked) by (intros ?; apply Hc, Hvis; by left).
  split_and!.
  - apply NoDup_app. split_and!; [done| |apply NoDup_singleton].
    intros x Hx ->%list_elem_of_singleton. apply Hc, Hvis. by right.
  - intros x. rewrite elem_of_union, elem_of_singleton, elem_of_app,
      list_elem_of_singleton, Hvis. tauto.
  - intros x [?| ->%list_elem_of_singleton]%elem_of_app; auto.
  - intros x [[?| ->%list_elem_of_singleton]%elem_of_app|[?|[Hn Hnv]]%Hw'].
    + apply Hreach. by left.
    + done.
    + apply Hreach. right. by right.
    + eapply rtc_r; [exact Hrc|]. split; [done|].
      intros Hb. apply Hnv, elem_of_union. right. apply Hvis. by left.
  - intros x y [Hx| ->%list_elem_of_singleton]%elem_of_app Hxy.
    + destruct (Hcl x y Hx Hxy) as [?|[->|?]%elem_of_cons].
      * left. apply elem_of_union. by right.
      * left. apply elem_of_union. left. by apply elem_of_singleton.
      * right. apply Hw'. by left.
    + destruct (decide (y ∈ {[c]} ∪ vis)); [by left|].
      right. apply Hw'. by right.
  - right. destruct Hhead as [[-> [= -> ->]]|?]; [done|].
    by apply head_app_nonempty.
Qed.

Lemma scan_inv_final vis res :
  scan_inv adj blocked s vis [] res →
  NoDup res ∧ head res = Some s ∧
  (∀ x, x ∈ vis ↔ x ∈ blocked ∨ x ∈ res) ∧
  (∀ x, x ∈ res ↔ reachable_avoiding adj blocked s x).
Proof.
  intros (Hnd & Hvis & Hres & Hreach & Hcl & Hhead).
  assert (Hh : head res = Some s) by (by destruct Hhead as [[_ [=]]|?]).
  split_and!; try done.
  intros x. split; [intros ?; apply Hreach; by left|].
  assert (Hsr : s ∈ res) by (by apply head_Some_elem_of).
  assert (Hstep : ∀ a b, reachable_avoiding adj blocked a b → a ∈ res → b ∈ res).
  { induction 1 as [|a b c [Hab Hb] _ IH]; [done|].
    intros Ha. apply IH.
    destruct (Hcl a b Ha Hab) as [[?|?]%Hvis|?%elem_of_nil]; done. }
  intros Hx. by eapply Hstep.
Qed.
End scan.

Section scan_loops.
Variable adj : adjacency.
Hypothesis Hclosed : closed adj.

Lemma bfs_loop_scan fuel blocked s out vis' adj' :
  s ∈ keys adj → s ∉ blocked →
  bfs_loop fuel adj blocked [s] [] = Some (out, vis', adj') →
  adj' = adj ∧ scan_inv adj blocked s vis' [] out.
Proof.
  intros Hkey Hs Hrun.
  eapply (bfs_loop_rule adj Hclosed (scan_inv adj blocked s)); [..|exact Hrun].
  - intros vis c q res _. by apply scan_inv_skip.
  - intros vis c q res _. apply scan_inv_expand.
    intros y. rewrite elem_of_app, list_elem_of_filter. tauto.
  - by apply Forall_singleton.
  - apply scan_inv_init.
Qed.

Lemma dfs_loop_scan fuel blocked s out vis' adj' :
  s ∈ keys adj → s ∉ blocked →
  dfs_loop fuel adj blocked [s] [] = Some (out, vis', adj') →
  adj' = adj ∧ scan_inv adj blocked s vis' [] out.
Proof.
  intros Hkey Hs Hrun.
  eapply (dfs_loop_rule adj Hclosed (scan_inv adj blocked s)); [..|exact Hrun].
  - intros vis c q res _. by apply scan_inv_skip.
  - intros vis c q res _. apply scan_inv_expand.
    intros y. rewrite elem_of_app, list_elem_of_filter. tauto.
  - by apply Forall_singleton.
  - apply scan_inv_init.
Qed.

(** The recursive search from a fresh key, seen through the stack loop. *)
Lemma dfs_recursive_call_scan frames blocked s sub vis' adj' :
  s ∈ keys adj → s ∉ blocked →
  dfs_recursive_call frames adj s blocked = (Returned sub, vis', adj') →
  adj' = adj ∧ scan_inv adj blocked s vis' [] sub.
Proof.
  intros Hkey Hs Hrec.
  destruct (dfs_recursive_call_simulated adj Hclosed frames _ _ _ _ _ Hkey Hrec)
    as (-> & _ & k & Hk).
  split; [done|].
  specialize (Hk 1 [] []). cbn [app dfs_loop] in Hk.
  by apply dfs_loop_scan in Hk as [_ ?].
Qed.
End scan_loops.

(** X12: [dfs_recursive] called with a visited set changes no graph and
    either raises [RecursionError] or returns, without repetition and
    beginning with the start, exactly the vertices reachable from the start
    along paths that do not enter that set, the set shared by the call tree
    then holding what it held before plus the result; it returns the empty
    list when the start is already in the set, and it returns whenever the
    graph has no more vertices than the recursion limit leaves nested
    activations. *)
Theorem dfs_recursive_with_visited (limit : nat) (g : Graph) (start : vertex)
    (visited : gset vertex) (Hg : graph_inv g)
    (Hstart : start ∈ keys (adjacency_list g)) :
  ∃ out visited',
    dfs_recursive limit g start (Some visited) = (out, g) ∧
    dfs_recursive_call (S limit) (adjacency_list g) start visited
      = (out, visited', adjacency_list g) ∧
    (out = RecursionError ∨
     ∃ r, out = Returned r ∧
          NoDup r ∧
          (∀ x, x ∈ visited' ↔ x ∈ visited ∨ x ∈ r) ∧
          (start ∉ visited →
             head r = Some start ∧
             ∀ x, x ∈ r ↔ reachable_avoiding (adjacency_list g) visited start x)) ∧
    (start ∈ visited → out = Returned []) ∧
    (length (adjacency_list g) ≤ limit → out ≠ RecursionError).
Proof.
  destruct Hg as [_ Hclosed].
  destruct (dfs_recursive_call (S limit) (adjacency_list g) start visited)
    as [[out visited'] adj'] eqn:Hrec.
  destruct (dfs_recursive_call_framed _ _ _ _ _ _ _ Hrec) as [-> Hout].
  exists out, visited'. unfold dfs_recursive.
  change (default ∅ (Some visited)) with visited. rewrite Hrec.
  rewrite graph_eta. split; [done|]. split; [done|]. split_and!.
  - destruct Hout as [-> |[r ->]]; [by left|]. right. exists r. split; [done|].
    destruct (decide (start ∈ visited)) as [Hin|Hnotin].
    + cbn [dfs_recursive_call] in Hrec.
      rewrite (proj2 (contains_true _ _) Hstart), bool_decide_true in Hrec by done.
      cbn [negb orb] in Hrec. injection Hrec as <- <-.
      split_and!; [apply NoDup_nil_2| |done].
      intros x. split; [by left|]. by intros [?|?%elem_of_nil].
    + apply dfs_recursive_call_scan in Hrec as [_ Hinv]; [|done..].
      apply scan_inv_final in Hinv as (? & ? & ? & ?).
      split_and!; done.
  - intros Hin. cbn [dfs_recursive_call] in Hrec.
    rewrite (proj2 (contains_true _ _) Hstart), bool_decide_true in Hrec by done.
    cbn [negb orb] in Hrec. by injection Hrec as <- _.
  - intros Hle ->.
    destruct (dfs_recursive_call_total (adjacency_list g) (S limit) start visited)
      as (r & vis'' & Hrec' & _).
    { pose proof (unvisited_le_length (adjacency_list g) visited). lia. }
    congruence.
Qed.

Lemma dfs_recursive_with_visited_witness :
  ∃ out visited',
    dfs_recursive 998 chain_graph "A" (Some {["C"]}) = (out, chain_graph) ∧
    dfs_recursive_call 999 (adjacency_list chain_graph) "A" {["C"]}
      = (out, visited', adjacency_list chain_graph) ∧
    (out = RecursionError ∨
     ∃ r, out = Returned r ∧
          NoDup r ∧
          (∀ x, x ∈ visited' ↔ x ∈ ({["C"]} : gset vertex) ∨ x ∈ r) ∧
          ("A" ∉ ({["C"]} : gset vertex) →
             head r = Some "A" ∧
             ∀ x, x ∈ r ↔
                  reachable_avoiding (adjacency_list chain_graph) {["C"]} "A" x)) ∧
    ("A" ∈ ({["C"]} : gset vertex) → out = Returned []) ∧
    (length (adjacency_list chain_graph) ≤ 998 → out ≠ RecursionError).
Proof.
  apply (dfs_recursive_with_visited 998 chain_graph "A" {["C"]}); by_evaluation.
Defined.


(** ** The component list, component by component *)

Section components_shape.
Variable adj : adjacency.
Hypothesis Hclosed : closed adj.

Lemma components_shape_snoc comps c v before after :
  components_shape adj comps →
  head c = Some v →
  keys adj = before ++ v :: after →
  (∀ k, k ∈ before → k ∈ concat comps) →
  v ∉ concat comps →
  (∀ x, x ∈ c ↔ reachable_avoiding adj (list_to_set (concat comps)) v x) →
  components_shape adj (comps ++ [c]).
Proof.
  intros Hshape Hhead Hkeys Hbefore Hv Hc i d Hi.
  destruct (decide (i < length comps)) as [Hlt|Hge].
  - rewrite lookup_app_l in Hi by done.
    rewrite take_app_le by lia. by apply Hshape.
  - assert (i = length comps) as ->.
    { apply lookup_lt_Some in Hi. rewrite length_app in Hi. simpl in Hi. lia. }
    rewrite list_lookup_middle in Hi by done. simplify_eq.
    rewrite take_app_length. by exists v, before, after.
Qed.

Lemma components_loop_shape done_keys vs vis comps out adj' :
  keys adj = done_keys ++ vs →
  (∀ k, k ∈ done_keys → k ∈ vis) →
  vis = list_to_set (concat comps) →
  components_shape adj comps →
  components_loop (length adj) vs adj vis comps = Some (Returned out, adj') →
  components_shape adj out.
Proof.
  revert done_keys vis comps.
  induction vs as [|v vs IH]; intros done_keys vis comps Hkeys Hdone Hvis Hshape;
    cbn [components_loop]; rewrite bool_decide_false by (intros Hn; by apply Hn).
  { by intros [= <- <-]. }
  assert (Hv : v ∈ keys adj).
  { rewrite Hkeys. apply elem_of_app. right. left. }
  assert (Hkeys' : keys adj = (done_keys ++ [v]) ++ vs) by (by rewrite <-app_assoc).
  case_bool_decide as Hseen.
  - apply (IH (done_keys ++ [v])); [done| |done..].
    intros k [?| ->%list_elem_of_singleton]%elem_of_app; auto.
  - destruct (bfs_loop _ _ _ _ _) as [[[component vis'] adj1]|] eqn:Hrun; [|done].
    apply bfs_loop_scan in Hrun as [-> Hinv]; [|done..].
    apply scan_inv_final in Hinv as (Hnd & Hhead & Hvis' & Hreach).
    destruct component as [|c0 component']; [done|].
    set (component := c0 :: component') in *.
    assert (Hset : vis' = list_to_set (concat (comps ++ [component]))).
    { apply set_eq. intros x.
      rewrite Hvis', concat_app, elem_of_list_to_set, elem_of_app. simpl.
      rewrite app_nil_r, Hvis, elem_of_list_to_set. done. }
    apply (IH (done_keys ++ [v])); [done| |done|].
    + intros k [?%Hdone| ->%list_elem_of_singleton]%elem_of_app; apply Hvis'.
      * by left.
      * right. by apply head_Some_elem_of.
    + apply (components_shape_snoc _ _ v done_keys vs); try done.
      * intros k Hk%Hdone. by rewrite Hvis, elem_of_list_to_set in Hk.
      * intros Hin. apply Hseen. by rewrite Hvis, elem_of_list_to_set.
      * by rewrite <-Hvis.
Qed.
End components_shape.

Lemma connected_components_bfs_shape (g : Graph) :
  closed (adjacency_list g) →
  ∃ comps, connected_components_bfs g = Some (Returned comps, g) ∧
           NoDup (concat comps) ∧
           (∀ x, x ∈ concat comps ↔ x ∈ keys (adjacency_list g)) ∧
           components_shape (adjacency_list g) comps.
Proof.
  intros Hclosed.
  destruct (connected_components_bfs_correct g Hclosed) as (comps & Hrun & Hnd & Hall).
  exists comps. split_and!; [done..|].
  unfold connected_components_bfs in Hrun.
  destruct (components_loop _ _ _ _ _) as [[r adj']|] eqn:Hloop; [|done].
  cbn [mbind option_bind] in Hrun. injection Hrun as -> _.
  eapply (components_loop_shape _ Hclosed []); [done| | |..|exact Hloop].
  - by intros k ?%elem_of_nil.
  - done.
  - by intros i c.
Qed.

Lemma reachable_avoiding_empty adj s x :
  reachable_avoiding adj ∅ s x ↔ reachable adj s x.
Proof.
  split.
  - apply rtc_subrel. by intros a b [? _].
  - apply rtc_subrel. intros a b ?. split; [done | apply not_elem_of_empty].
Qed.

(** X13: each component returned by [connected_components_bfs] begins with
    its seed, which is the first vertex of the graph that no earlier
    component holds, and consists of exactly the vertices reachable from
    the seed along paths that enter no earlier component.  In particular no
    component is empty. *)
Theorem connected_components_are_scans (g : Graph) (Hg : graph_inv g) :
  ∃ comps,
    connected_components_bfs g = Some (Returned comps, g) ∧
    ∀ i c, comps !! i = Some c →
      ∃ seed before after,
        head c = Some seed ∧
        (get_vertices g).1 = before ++ seed :: after ∧
        (∀ k, k ∈ before → k ∈ concat (take i comps)) ∧
        (seed ∉ concat (take i comps)) ∧
        ∀ x, x ∈ c ↔
             reachable_avoiding (adjacency_list g)
               (list_to_set (concat (take i comps))) seed x.
Proof.
  destruct Hg as [_ Hclosed].
  destruct (connected_components_bfs_shape g Hclosed) as (comps & Hrun & _ & _ & Hshape).
  exists comps. split; [done|]. exact Hshape.
Qed.

Lemma connected_components_are_scans_witness :
  ∃ comps,
    connected_components_bfs chain_graph = Some (Returned comps, chain_graph) ∧
    ∀ i c, comps !! i = Some c →
      ∃ seed before after,
        head c = Some seed ∧
        (get_vertices chain_graph).1 = before ++ seed :: after ∧
        (∀ k, k ∈ before → k ∈ concat (take i comps)) ∧
        (seed ∉ concat (take i comps)) ∧
        ∀ x, x ∈ c ↔
             reachable_avoiding (adjacency_list chain_graph)
               (list_to_set (concat (take i comps))) seed x.
Proof.
  apply (connected_components_are_scans chain_graph). by_evaluation.
Defined.

(** ** Connectivity *)

Lemma reachable_trans adj a b c :
  reachable adj a b → reachable adj b c → reachable adj a c.
Proof. unfold reachable. intros Hab Hbc. by etrans. Qed.

Lemma keys_cases adj : keys adj = [] ∨ ∃ first rest, keys adj = first :: rest.
Proof. destruct (keys adj); eauto. Qed.

Section connectivity.
Variable g : Graph.
Hypothesis Hnodup : NoDup (keys (adjacency_list g)).
Hypothesis Hclosed : closed (adjacency_list g).

Local Abbreviation adj := (adjacency_list g).

Lemma covers_iff_size (r ks : list vertex) :
  NoDup r → NoDup ks → (∀ x, x ∈ r → x ∈ ks) →
  size (list_to_set r : gset vertex) = length ks ↔ ∀ x, x ∈ ks → x ∈ r.
Proof.
  intros Hr Hks Hsub. rewrite size_list_to_set by done. split.
  - intros Hlen x Hx.
    assert (r ≡ₚ ks) as Hperm.
    { apply submseteq_length_Permutation; [by apply NoDup_submseteq | lia]. }
    by rewrite Hperm.
  - intros Hall. apply Permutation_length, NoDup_Permutation; [done..|].
    intros x. split; auto.
Qed.

Lemma is_connected_reach first rest :
  keys adj = first :: rest →
  ∃ b, is_connected g = Some (b, g) ∧
       (b = true ↔ ∀ x, x ∈ keys adj → reachable adj first x).
Proof.
  intros Hkeys.
  assert (Hfirst : first ∈ keys adj) by (rewrite Hkeys; left).
  pose proof (is_connected_unfold g Hclosed) as Hic. rewrite Hkeys in Hic.
  destruct Hic as (r & Hbfs & Hic).
  destruct (breadth_first_search_correct g first Hclosed Hfirst)
    as (r' & Hbfs' & Hnd & Hreach).
  assert (r' = r) as -> by congruence.
  eexists. split; [exact Hic|].
  rewrite bool_decide_eq_true, <-Hkeys, covers_iff_size; [|done..|].
  - split; intros Hall x Hx; [by apply Hreach, Hall | by apply Hreach, Hall].
  - intros x Hx%Hreach. by eapply reachable_key.
Qed.

Lemma is_connected_empty : keys adj = [] → is_connected g = Some (true, g).
Proof.
  intros Hkeys. pose proof (is_connected_unfold g Hclosed) as Hic.
  by rewrite Hkeys in Hic.
Qed.
End connectivity.

Section undirected.
Variable adj : adjacency.
Hypothesis Hsym : symmetric adj.

Lemma reachable_sym a b : reachable adj a b → reachable adj b a.
Proof.
  induction 1 as [|a b c Hab _ IH]; [apply rtc_refl|].
  eapply rtc_r; [exact IH | by apply Hsym].
Qed.

Lemma reachable_avoiding_class (blocked : gset vertex) v x :
  (∀ a b, a ∈ blocked → reachable adj a b → b ∈ blocked) →
  v ∉ blocked →
  reachable_avoiding adj blocked v x ↔ reachable adj v x.
Proof.
  intros Hcl Hv. split.
  - apply rtc_subrel. by intros a b [? _].
  - revert x. unfold reachable.
    apply (rtc_ind_r (λ z, reachable_avoiding adj blocked v z)); [apply rtc_refl|].
    intros a b Hva Hab IH. eapply rtc_r; [exact IH|]. split; [done|].
    intros Hb. apply Hv, (Hcl b); [done|].
    apply reachable_sym. eapply rtc_r; [exact Hva | exact Hab].
Qed.

Lemma components_are_classes comps n :
  components_shape adj comps → n ≤ length comps →
  (∀ x y, x ∈ concat (take n comps) → reachable adj x y →
          y ∈ concat (take n comps)) ∧
  (∀ i c, i < n → comps !! i = Some c →
          ∃ v, v ∈ c ∧ ∀ x, x ∈ c ↔ reachable adj v x).
Proof.
  intros Hshape. induction n as [|n IH]; intros Hn.
  { split; [by intros x y ?%elem_of_nil | intros; lia]. }
  destruct IH as [Hcl Hclass]; [lia|].
  destruct (lookup_lt_is_Some_2 comps n) as [c Hc]; [lia|].
  destruct (Hshape n c Hc) as (v & before & after & Hhead & _ & _ & Hv & Hreach).
  assert (Hcv : ∀ x, x ∈ c ↔ reachable adj v x).
  { intros x. rewrite Hreach. apply reachable_avoiding_class.
    - intros a b Ha Hab. rewrite elem_of_list_to_set in *. by eapply Hcl.
    - by rewrite elem_of_list_to_set. }
  rewrite (take_S_r _ _ _ Hc), concat_app. simpl. rewrite app_nil_r. split.
  - intros x y [Hx|Hx]%elem_of_app Hxy; apply elem_of_app.
    + left. by eapply Hcl.
    + right. apply Hcv. eapply reachable_trans; [by apply Hcv | done].
  - intros i d Hi Hd. destruct (decide (i = n)) as [->|Hne].
    + simplify_eq. exists v. split; [by apply head_Some_elem_of | done].
    + apply (Hclass i); [lia | done].
Qed.
End undirected.

(** X14: on a non-empty graph [is_connected] answers [True] exactly when
    every vertex is reachable from the first vertex of the graph. *)
Theorem is_connected_iff_all_reachable (g : Graph) (first : vertex)
    (Hg : graph_inv g) (Hfirst : head (get_vertices g).1 = Some first) :
  ∃ b, is_connected g = Some (b, g) ∧
       (b = true ↔
        ∀ x, x ∈ (get_vertices g).1 → reachable (adjacency_list g) first x).
Proof.
  destruct Hg as [Hnodup Hclosed]. simpl in *.
  apply head_Some in Hfirst as [rest Hkeys].
  by eapply is_connected_reach.
Qed.

Lemma is_connected_iff_all_reachable_witness :
  ∃ b, is_connected chain_graph = Some (b, chain_graph) ∧
       (b = true ↔
        ∀ x, x ∈ (get_vertices chain_graph).1 →
             reachable (adjacency_list chain_graph) "A" x).
Proof.
  apply (is_connected_iff_all_reachable chain_graph "A"); by_evaluation.
Defined.

(** X15: on an undirected graph built with [add_vertex] and [add_edge],
    [is_connected] answers [True] exactly when every vertex is reachable
    from every other vertex; the empty graph counts as connected. *)
Theorem is_connected_undirected (g : Graph)
    (Hbuilt : built g) (Hundirected : directed g = false) :
  ∃ b, is_connected g = Some (b, g) ∧
       (b = true ↔
        ∀ x y, x ∈ (get_vertices g).1 → y ∈ (get_vertices g).1 →
               reachable (adjacency_list g) x y).
Proof.
  pose proof (built_directed_symmetric g Hbuilt Hundirected) as Hsym.
  destruct (built_inv g Hbuilt) as [Hnodup Hclosed]. simpl.
  destruct (keys_cases (adjacency_list g)) as [Hkeys|(first & rest & Hkeys)].
  - exists true. split; [by apply is_connected_empty|].
    split; [|done]. rewrite Hkeys. by intros _ x y ?%elem_of_nil.
  - destruct (is_connected_reach g Hnodup Hclosed first rest Hkeys) as (b & Hic & Hb).
    exists b. split; [done|]. rewrite Hb, Hkeys. split.
    + intros Hall x y Hx Hy. eapply reachable_trans; [|by apply Hall].
      apply reachable_sym; [done|]. by apply Hall.
    + intros Hall x Hx. apply Hall; [left | done].
Qed.

Lemma is_connected_undirected_witness :
  ∃ b, is_connected islands_graph = Some (b, islands_graph) ∧
       (b = true ↔
        ∀ x y, x ∈ (get_vertices islands_graph).1 →
               y ∈ (get_vertices islands_graph).1 →
               reachable (adjacency_list islands_graph) x y).
Proof.
  apply (is_connected_undirected islands_graph); [|reflexivity].
  unfold islands_graph. simpl. apply built_add_vertex.
  repeat apply built_add_edge. apply built_new.
Defined.

(** X16: [is_connected] answers [True] exactly when
    [connected_components_bfs] returns at most one component. *)
Theorem is_connected_iff_one_component (g : Graph) (Hg : graph_inv g) :
  ∃ b comps,
    is_connected g = Some (b, g) ∧
    connected_components_bfs g = Some (Returned comps, g) ∧
    (b = true ↔ length comps ≤ 1).
Proof.
  destruct Hg as [Hnodup Hclosed].
  destruct (connected_components_bfs_shape g Hclosed)
    as (comps & Hrun & Hnd & Hall & Hshape).
  destruct (keys_cases (adjacency_list g)) as [Hkeys|(first & rest & Hkeys)].
  - exists true, comps. split_and!; [by apply is_connected_empty | done |].
    split; [|done]. intros _.
    destruct comps as [|c comps]; [simpl; lia|].
    destruct (Hshape 0 c eq_refl) as (v & _ & _ & Hhead & _).
    apply head_Some_elem_of in Hhead.
    assert (v ∈ concat (c :: comps)) as Hv by (simpl; apply elem_of_app; by left).
    apply Hall in Hv. rewrite Hkeys in Hv. by apply elem_of_nil in Hv.
  - destruct (is_connected_reach g Hnodup Hclosed first rest Hkeys) as (b & Hic & Hb).
    exists b, comps. split_and!; [done..|]. rewrite Hb.
    destruct comps as [|c0 comps].
    { assert (first ∈ concat []) as ?%elem_of_nil; [|done].
      apply Hall. rewrite Hkeys. left. }
    destruct (Hshape 0 c0 eq_refl) as (v & before & after & _ & Hsplit & Hbefore & _ & Hc0).
    assert (before = []) as ->.
    { destruct before as [|k before]; [done|].
      assert (k ∈ k :: before) as Hk by left.
      apply Hbefore in Hk. by apply elem_of_nil in Hk. }
    rewrite Hkeys in Hsplit. simpl in Hsplit, Hc0. injection Hsplit as <- _.
    assert (Hc0' : ∀ x, x ∈ c0 ↔ reachable (adjacency_list g) first x).
    { intros x. rewrite Hc0.
      replace (list_to_set [] : gset vertex) with (∅ : gset vertex) by done.
      apply reachable_avoiding_empty. }
    split.
    + intros Hreach. destruct comps as [|c1 comps]; [simpl; lia|]. exfalso.
      destruct (Hshape 1 c1 eq_refl) as (v1 & b1 & a1 & Hhead1 & Hsplit1 & _).
      apply head_Some_elem_of in Hhead1.
      assert (v1 ∈ c0).
      { apply Hc0', Hreach. rewrite Hsplit1.
        apply elem_of_app. right. left. }
      by assert (0 = 1) by (by eapply (concat_unique (c0 :: c1 :: comps) 0 1)).
    + intros Hlen x Hx. destruct comps as [|? ?]; [|simpl in Hlen; lia].
      apply Hc0'. apply Hall in Hx.
      simpl in Hx. by rewrite app_nil_r in Hx.
Qed.

Lemma is_connected_iff_one_component_witness :
  ∃ b comps,
    is_connected islands_graph = Some (b, islands_graph) ∧
    connected_components_bfs islands_graph = Some (Returned comps, islands_graph) ∧
    (b = true ↔ length comps ≤ 1).
Proof.
  apply (is_connected_iff_one_component islands_graph). by_evaluation.
Defined.

(** X17: on an undirected graph built with [add_vertex] and [add_edge],
    two vertices lie in the same component returned by
    [connected_components_bfs] exactly when one is reachable from the
    other. *)
Theorem undirected_components_are_reachability_classes (g : Graph) (x y : vertex)
    (Hbuilt : built g) (Hundirected : directed g = false)
    (Hx : x ∈ keys (adjacency_list g)) :
  ∃ comps,
    connected_components_bfs g = Some (Returned comps, g) ∧
    ((∃ c, c ∈ comps ∧ x ∈ c ∧ y ∈ c) ↔ reachable (adjacency_list g) x y).
Proof.
  pose proof (built_directed_symmetric g Hbuilt Hundirected) as Hsym.
  destruct (built_inv g Hbuilt) as [_ Hclosed].
  destruct (connected_components_bfs_shape g Hclosed)
    as (comps & Hrun & Hnd & Hall & Hshape).
  exists comps. split; [done|].
  destruct (components_are_classes _ Hsym comps (length comps) Hshape)
    as [_ Hclass]; [done|].
  split.
  - intros (c & [i Hi]%list_elem_of_lookup & Hxc & Hyc).
    destruct (Hclass i c) as (v & _ & Hv); [by eapply lookup_lt_Some | done |].
    eapply reachable_trans; [apply reachable_sym; [done|]; by apply Hv | by apply Hv].
  - intros Hxy. apply Hall in Hx.
    apply list_elem_of_In, in_concat in Hx as (c & Hc & Hxc).
    apply list_elem_of_In in Hc, Hxc.
    pose proof Hc as [i Hi]%list_elem_of_lookup.
    destruct (Hclass i c) as (v & _ & Hv); [by eapply lookup_lt_Some | done |].
    exists c. split_and!; [done..|].
    apply Hv. eapply reachable_trans; [by apply Hv | done].
Qed.

Lemma undirected_components_are_reachability_classes_witness :
  ∃ comps,
    connected_components_bfs islands_graph = Some (Returned comps, islands_graph) ∧
    ((∃ c, c ∈ comps ∧ "C" ∈ c ∧ "E" ∈ c)
     ↔ reachable (adjacency_list islands_graph) "C" "E").
Proof.
  apply (undirected_components_are_reachability_classes islands_graph "C" "E");
    [|reflexivity|by_evaluation].
  unfold islands_graph. simpl. apply built_add_vertex.
  repeat apply built_add_edge. apply built_new.
Defined.


(** ** The breadth-first traversal visits by distance *)

Lemma walk_keys adj s w z :
  closed adj → s ∈ keys adj → head w = Some s → walk adj w → z ∈ w → z ∈ keys adj.
Proof.
  intros Hclosed. revert s.
  induction w as [|x w IH]; intros s Hs Hhead Hwalk Hz; [by apply elem_of_nil in Hz|].
  simpl in Hhead. simplify_eq.
  apply elem_of_cons in Hz as [->|Hz]; [done|].
  apply walk_cons_inv in Hwalk as [Hwalk Hedge].
  destruct w as [|y w]; [by apply elem_of_nil in Hz|].
  apply (IH y); [|done..]. eapply closed_nbrs; [done|]. by apply Hedge.
Qed.

Lemma sorted_lookup (l : list nat) i j a b :
  StronglySorted le l → i < j → l !! i = Some a → l !! j = Some b → a ≤ b.
Proof.
  revert i j. induction l as [|x l IH]; intros i j Hsorted Hij Hi Hj; [done|].
  apply StronglySorted_cons in Hsorted as [Hall Hsorted].
  destruct j as [|j]; [lia|]. simpl in Hj.
  destruct i as [|i]; simpl in Hi; simplify_eq.
  - rewrite Forall_forall in Hall. apply Hall. by eapply list_elem_of_lookup_2.
  - apply (IH i j); [done | lia | done..].
Qed.

Section bfs_levels.
Variable adj : adjacency.
Variables s target : vertex.
Hypothesis Hclosed : closed adj.
Hypothesis Hs : s ∈ keys adj.
Hypothesis Htarget : target ∉ keys adj.

Lemma path_is_target_free x w :
  path_from_to adj s x w → tfree_walk adj s target w x.
Proof.
  intros (Hhead & Hlast & Hwalk). split_and!; [done..|].
  intros Hin. apply Htarget. by eapply walk_keys.
Qed.

Lemma target_not_neighbor c : target ∉ nbrs adj c.
Proof. intros Hin. apply Htarget. by eapply closed_nbrs. Qed.

Lemma start_is_not_target : s ≠ target.
Proof. intros ->. done. Qed.

Lemma level_inv_init : level_inv adj s target ∅ [s] [].
Proof.
  exists [(s, [s])], []. split_and!; [done| |constructor|constructor|].
  - apply bfs_inv_init, start_is_not_target.
  - by intros n e ?%elem_of_nil.
Qed.

Lemma level_inv_skip vis c q res :
  c ∈ vis → level_inv adj s target vis (c :: q) res →
  level_inv adj s target vis q res.
Proof.
  intros Hc (aq & levels & Hq & Hinv & Hdist & Hsorted & Hbound).
  destruct aq as [|[c' p] aq]; simplify_eq/=.
  exists aq, levels. split_and!; [done| |done..|].
  - by eapply bfs_inv_skip.
  - intros n e Hn He. apply Hbound; [done | by right].
Qed.

Lemma level_inv_expand vis c q res :
  c ∉ vis → level_inv adj s target vis (c :: q) res →
  level_inv adj s target ({[c]} ∪ vis)
    (q ++ filter (λ n, n ∉ {[c]} ∪ vis) (nbrs adj c)) (res ++ [c]).
Proof.
  intros Hc (aq & levels & Hq & Hinv & Hdist & Hsorted & Hbound).
  destruct aq as [|[c' p] aq]; simplify_eq/=.
  pose proof (expanded_optimal adj s target vis c' p aq) as Hopt.
  specialize (λ u, Hopt u Hinv Hc).
  pose proof Hinv as ([(Hhead & Hlast & Hwalk & _) _]%Forall_cons & Hlevel & _).
  simpl in *.
  exists (aq ++ (extend p <$> filter (λ n, n ∉ {[c']} ∪ vis) (nbrs adj c'))),
    (levels ++ [length p]).
  split_and!.
  - rewrite fmap_app. f_equal.
    induction (filter _ _) as [|n ns IH]; [done|]. rewrite !fmap_cons. by f_equal.
  - apply bfs_inv_expand;
      [apply start_is_not_target | done | apply target_not_neighbor | done].
  - apply Forall2_app; [done|]. constructor; [|constructor]. split.
    + exists p. split; [by split_and! | done].
    + intros w Hw%path_is_target_free. specialize (Hopt w Hw).
      unfold edges_of. lia.
  - apply StronglySorted_app. split_and!; [|done|].
    + intros n m Hn ->%list_elem_of_singleton.
      apply (Hbound n (c', p)); [done | left].
    + apply StronglySorted_cons. split; constructor.
  - intros n e [Hn| ->%list_elem_of_singleton]%elem_of_app
      [He|(m & -> & _)%list_elem_of_fmap]%elem_of_app; simpl.
    + apply Hbound; [done | by right].
    + rewrite length_app. simpl.
      pose proof (Hbound n (c', p) Hn (list_elem_of_here _ _)). simpl in *. lia.
    + by eapply (head_minimal c' p aq e); [|right].
    + rewrite length_app. simpl. lia.
Qed.

Lemma level_inv_final vis res :
  level_inv adj s target vis [] res →
  ∃ levels, Forall2 (λ x n, distance adj s x (pred n)) res levels ∧
            StronglySorted le levels.
Proof. intros (aq & levels & _ & _ & ? & ? & _). by exists levels. Qed.

Lemma distance_unique x n m : distance adj s x n → distance adj s x m → n = m.
Proof.
  intros [(p & Hp & <-) Hn] [(q & Hq & <-) Hm].
  specialize (Hn q Hq). specialize (Hm p Hp). lia.
Qed.
End bfs_levels.

Lemma breadth_first_search_levels (g : Graph) (s : vertex) :
  closed (adjacency_list g) → s ∈ keys (adjacency_list g) →
  ∀ r g', breadth_first_search g s = Some (r, g') →
    ∃ levels, Forall2 (λ x n, distance (adjacency_list g) s x (pred n)) r levels ∧
              StronglySorted le levels.
Proof.
  intros Hclosed Hs r g'. unfold breadth_first_search.
  rewrite (proj2 (contains_true _ _) Hs). cbn [negb].
  destruct (bfs_loop _ _ _ _ _) as [[[out vis'] adj']|] eqn:Hrun; [|done].
  cbn [mbind option_bind]. intros [= <- _].
  set (target := fresh (keys (adjacency_list g))).
  assert (Htarget : target ∉ keys (adjacency_list g)) by apply infinite_is_fresh.
  apply (level_inv_final (adjacency_list g) s target vis').
  assert (adj' = adjacency_list g ∧
          level_inv (adjacency_list g) s target vis' [] out) as [_ ?]; [|done].
  eapply (bfs_loop_rule _ Hclosed (level_inv (adjacency_list g) s target));
    [..|exact Hrun].
  - intros vis c q res _. by apply level_inv_skip.
  - intros vis c q res _. by apply level_inv_expand.
  - by apply Forall_singleton.
  - by apply level_inv_init.
Qed.

(** X18: [breadth_first_search] lists the vertices in order of distance: a
    vertex is never listed after one that is farther, in edges, from the
    start. *)
Theorem breadth_first_search_by_distance (g : Graph) (start : vertex)
    (Hg : graph_inv g) (Hstart : start ∈ keys (adjacency_list g)) :
  ∃ r, breadth_first_search g start = Some (r, g) ∧
       ∀ i j x y dx dy,
         i ≤ j → r !! i = Some x → r !! j = Some y →
         distance (adjacency_list g) start x dx →
         distance (adjacency_list g) start y dy →
         dx ≤ dy.
Proof.
  destruct Hg as [_ Hclosed].
  destruct (breadth_first_search_correct g start Hclosed Hstart) as (r & Hrun & _).
  exists r. split; [done|].
  destruct (breadth_first_search_levels g start Hclosed Hstart _ _ Hrun)
    as (levels & Hdist & Hsorted).
  intros i j x y dx dy Hij Hi Hj Hdx Hdy.
  destruct (Forall2_lookup_l _ _ _ _ _ Hdist Hi) as (nx & Hnx & Hx).
  destruct (Forall2_lookup_l _ _ _ _ _ Hdist Hj) as (ny & Hny & Hy).
  rewrite (distance_unique _ _ _ _ _ Hdx Hx), (distance_unique _ _ _ _ _ Hdy Hy).
  destruct (decide (i = j)) as [->|Hne]; [by simplify_eq|].
  assert (nx ≤ ny); [|lia].
  eapply (sorted_lookup levels i j); [done | lia | done..].
Qed.

Lemma breadth_first_search_by_distance_witness :
  ∃ r, breadth_first_search sample_graph "A" = Some (r, sample_graph) ∧
       ∀ i j x y dx dy,
         i ≤ j → r !! i = Some x → r !! j = Some y →
         distance (adjacency_list sample_graph) "A" x dx →
         distance (adjacency_list sample_graph) "A" y dy →
         dx ≤ dy.
Proof.
  apply (breadth_first_search_by_distance sample_graph "A"); by_evaluation.
Defined.


(** ** Operations composed *)

(** X19: on an undirected graph built with [add_vertex] and [add_edge],
    the component of [connected_components_bfs] that holds a vertex lists
    the same vertices as [breadth_first_search] from that vertex. *)
Theorem undirected_component_is_traversal (g : Graph) (v : vertex)
    (Hbuilt : built g) (Hundirected : directed g = false)
    (Hv : v ∈ keys (adjacency_list g)) :
  ∃ comps r c,
    connected_components_bfs g = Some (Returned comps, g) ∧
    breadth_first_search g v = Some (r, g) ∧
    c ∈ comps ∧ v ∈ c ∧ ∀ x, x ∈ c ↔ x ∈ r.
Proof.
  pose proof (built_directed_symmetric g Hbuilt Hundirected) as Hsym.
  destruct (built_inv g Hbuilt) as [_ Hclosed].
  destruct (connected_components_bfs_shape g Hclosed)
    as (comps & Hrun & Hnd & Hall & Hshape).
  destruct (breadth_first_search_correct g v Hclosed Hv) as (r & Hbfs & _ & Hreach).
  destruct (components_are_classes _ Hsym comps (length comps) Hshape)
    as [_ Hclass]; [done|].
  pose proof Hv as Hin. apply Hall in Hin.
  apply list_elem_of_In, in_concat in Hin as (c & Hc & Hvc).
  apply list_elem_of_In in Hc, Hvc.
  pose proof Hc as [i Hi]%list_elem_of_lookup.
  destruct (Hclass i c) as (u & _ & Hu); [by eapply lookup_lt_Some | done |].
  exists comps, r, c. split_and!; [done..|].
  intros x. rewrite Hu, Hreach. apply Hu in Hvc. split; intros Hx.
  - eapply reachable_trans; [by apply reachable_sym | done].
  - by eapply reachable_trans.
Qed.

Lemma undirected_component_is_traversal_witness :
  ∃ comps r c,
    connected_components_bfs islands_graph = Some (Returned comps, islands_graph) ∧
    breadth_first_search islands_graph "D" = Some (r, islands_graph) ∧
    c ∈ comps ∧ "D" ∈ c ∧ ∀ x, x ∈ c ↔ x ∈ r.
Proof.
  apply (undirected_component_is_traversal islands_graph "D");
    [|reflexivity|by_evaluation].
  unfold islands_graph. simpl. apply built_add_vertex.
  repeat apply built_add_edge. apply built_new.
Defined.

(** X20: right after [add_edge(u, v)] with [u] different from [v], both
    path searches from [u] to [v] return the new edge [[u, v]], and on an
    undirected graph the searches from [v] to [u] return [[v, u]]; this
    holds on any mapping. *)
Theorem add_edge_then_find_path (g : Graph) (u v : vertex) (Hne : u ≠ v) :
  find_path_bfs (add_edge g u v) u v = Some (Some [u; v], add_edge g u v) ∧
  find_path_dfs (add_edge g u v) u v = Some (Some [u; v], add_edge g u v) ∧
  (directed g = false →
   find_path_bfs (add_edge g u v) v u = Some (Some [v; u], add_edge g u v) ∧
   find_path_dfs (add_edge g u v) v u = Some (Some [v; u], add_edge g u v)).
Proof.
  assert (Hkeys : ∀ w, w = u ∨ w = v → w ∈ keys (adjacency_list (add_edge g u v))).
  { intros w Hw. rewrite keys_add_edge, !elem_of_app.
    destruct Hw as [-> | ->].
    - destruct (contains (adjacency_list g) u) eqn:Hc.
      + left. by apply contains_true.
      + right. left. left.
    - destruct (contains (adjacency_list g) v) eqn:Hc.
      + left. by apply contains_true.
      + right. right. rewrite bool_decide_false by done. left. }
  assert (Huv : v ∈ nbrs (adjacency_list (add_edge g u v)) u).
  { rewrite nbrs_add_edge, decide_True by done.
    rewrite !elem_of_app. right. left. left. }
  destruct (find_path_direct (add_edge g u v) u v) as [Hb Hd]; [done|auto..|].
  split_and!; [done..|]. intros Hd'.
  apply find_path_direct; [done | auto |].
  rewrite nbrs_add_edge, Hd', (decide_True (P := v = v)) by done.
  rewrite !elem_of_app. right. right. left.
Qed.

Lemma add_edge_then_find_path_witness :
  find_path_bfs (add_edge islands_graph "B" "F") "B" "F"
    = Some (Some ["B"; "F"], add_edge islands_graph "B" "F") ∧
  find_path_dfs (add_edge islands_graph "B" "F") "B" "F"
    = Some (Some ["B"; "F"], add_edge islands_graph "B" "F") ∧
  (directed islands_graph = false →
   find_path_bfs (add_edge islands_graph "B" "F") "F" "B"
     = Some (Some ["F"; "B"], add_edge islands_graph "B" "F") ∧
   find_path_dfs (add_edge islands_graph "B" "F") "F" "B"
     = Some (Some ["F"; "B"], add_edge islands_graph "B" "F")).
Proof.
  apply (add_edge_then_find_path islands_graph "B" "F"). by_evaluation.
Defined.

(** X21: from a known vertex whose neighbour list is empty, such as a
    vertex just added with [add_vertex] or the end of a directed chain,
    every traversal returns that vertex alone and both path searches to any
    other known vertex return [None]; this holds on any mapping. *)
Theorem vertex_without_neighbors (limit : nat) (g : Graph) (v target : vertex)
    (Hv : v ∈ keys (adjacency_list g))
    (Hnone : (get_neighbors g v).1 = [])
    (Htarget : target ∈ keys (adjacency_list g)) (Hne : v ≠ target) :
  breadth_first_search g v = Some ([v], g) ∧
  depth_first_search g v = Some ([v], g) ∧
  dfs_recursive limit g v None = (Returned [v], g) ∧
  find_path_bfs g v target = Some (None, g) ∧
  find_path_dfs g v target = Some (None, g).
Proof.
  simpl in Hnone.
  assert (Hget : getitem (adjacency_list g) v = ([], adjacency_list g)).
  { by rewrite (getitem_key _ _ Hv), Hnone. }
  unfold breadth_first_search, depth_first_search, dfs_recursive,
    find_path_bfs, find_path_dfs, loop_fuel.
  rewrite (proj2 (contains_true _ _) Hv), (proj2 (contains_true _ _) Htarget).
  cbn [negb orb default bfs_loop dfs_loop dfs_recursive_call
       find_path_bfs_loop find_path_dfs_loop].
  rewrite (proj2 (contains_true _ _) Hv), !decide_False by done.
  rewrite !bool_decide_false by apply not_elem_of_empty.
  rewrite Hget. cbn. by rewrite graph_eta.
Qed.

Lemma vertex_without_neighbors_witness :
  breadth_first_search chain_graph "C" = Some (["C"], chain_graph) ∧
  depth_first_search chain_graph "C" = Some (["C"], chain_graph) ∧
  dfs_recursive 998 chain_graph "C" None = (Returned ["C"], chain_graph) ∧
  find_path_bfs chain_graph "C" "A" = Some (None, chain_graph) ∧
  find_path_dfs chain_graph "C" "A" = Some (None, chain_graph).
Proof.
  apply (vertex_without_neighbors 998 chain_graph "C" "A"); by_evaluation.
Defined.
